(** * comma-cli: placeholder engine and command ranking

    A shallow embedding of [src/core/placeholders.ts] (the placeholder
    engine) and [src/utils/fuzzy.ts] (search and default ordering), with
    the properties of the specification proved about it.

    Modelling conventions.
    - A JavaScript string is a [string]: a sequence of code units, here
      restricted to the range 0..255.
    - A [Record<string, string>] is a plain object: its own properties
      are a finite map [gmap string string], and its prototype is
      [Object.prototype].  The [in] operator and a property read see the
      inherited members too, and an assignment to [__proto__] goes to the
      inherited setter.  The text that an inherited member converts to is
      the engine's, and is a parameter of the model.
    - A global regular expression is its matcher at one position together
      with the mutable [lastIndex] cursor that [exec], [test] and
      [replace] read and write.
    - An array that is sorted in place lives in a store of arrays. *)

From Stdlib Require Import Ascii String List ZArith Lia.
From stdpp Require Import base gmap strings list sorting.


(** ** Strings *)

Module Str.

(** [all p s]: every code unit of [s] satisfies [p]. *)
Fixpoint all (p : ascii → bool) (s : string) : bool :=
  match s with
  | EmptyString => true
  | String c s' => p c && all p s'
  end.

(** The last code unit of [s], or [d] when [s] is empty. *)
Fixpoint last (d : option ascii) (s : string) : option ascii :=
  match s with
  | EmptyString => d
  | String c s' => last (Some c) s'
  end.

(** [s.slice(n)]. *)
Fixpoint drop (n : nat) (s : string) : string :=
  match n, s with
  | O, _ => s
  | S _, EmptyString => EmptyString
  | S n', String _ s' => drop n' s'
  end.

(** [s.slice(0, n)]. *)
Fixpoint take (n : nat) (s : string) : string :=
  match n, s with
  | O, _ => EmptyString
  | S _, EmptyString => EmptyString
  | S n', String c s' => String c (take n' s')
  end.

(** Concatenation of a list of strings, [parts.join("")]. *)
Fixpoint concat (l : list string) : string :=
  match l with
  | [] => ""
  | s :: l' => s +:+ concat l'
  end.

End Str.

(** ** Global regular expressions

    A regular expression is modelled by its matcher at one position: given
    the code unit before the position (all that the lookbehind of
    [PLACEHOLDER_REGEX] inspects) and the text from the position on, it
    returns the match that starts there, if any.  [exec], [test] and
    [replace] follow ECMAScript's RegExpBuiltinExec and
    RegExp.prototype[Symbol.replace] for a regular expression with the
    [g] flag, whose [lastIndex] they read and write. *)

Module RegExp.

(** [match[0]], [match[1]], [match[2]]; a group that did not take part
    in the match is [undefined]. *)
Record Match := {
  full : string;
  group1 : option string;
  group2 : option string;
}.

Definition Matcher := option ascii → string → option Match.

(** The array returned by [exec]: the groups and [match.index]. *)
Record Result := {
  index : nat;
  groups : Match;
}.

Definition end_index (r : Result) : nat :=
  index r + String.length (full (groups r)).

(** The first position from [pos] on at which the matcher succeeds. *)
Fixpoint search (re : Matcher) (prev : option ascii) (rest : string)
    (pos : nat) : option Result :=
  match re prev rest with
  | Some m => Some {| index := pos; groups := m |}
  | None =>
      match rest with
      | EmptyString => None
      | String c rest' => search re (Some c) rest' (S pos)
      end
  end.

(** The code unit before index [i] of [s]. *)
Definition prev_at (i : nat) (s : string) : option ascii :=
  Str.last None (Str.take i s).

(** [re.exec(s)] with [re.lastIndex = lastIndex]: the result and the
    new [lastIndex]. *)
Definition exec (re : Matcher) (s : string) (lastIndex : nat)
    : option Result * nat :=
  if decide (String.length s < lastIndex) then (None, 0)
  else
    match search re (prev_at lastIndex s) (Str.drop lastIndex s) lastIndex with
    | Some r => (Some r, end_index r)
    | None => (None, 0)
    end.

(** [re.test(s)]. *)
Definition test (re : Matcher) (s : string) (lastIndex : nat) : bool * nat :=
  let '(r, lastIndex') := exec re s lastIndex in
  (bool_decide (is_Some r), lastIndex').

(** The loop of [replace] that collects every result; after an empty
    match [lastIndex] is advanced by one.  [None]: out of fuel. *)
Fixpoint exec_all (fuel : nat) (re : Matcher) (s : string) (lastIndex : nat)
    : option (list Result * nat) :=
  match fuel with
  | O => None
  | S fuel' =>
      match exec re s lastIndex with
      | (None, lastIndex') => Some ([], lastIndex')
      | (Some r, lastIndex') =>
          let thisIndex :=
            if decide (full (groups r) = "") then S lastIndex' else lastIndex' in
          '(rs, li) ← exec_all fuel' re s thisIndex;
          Some (r :: rs, li)
      end
  end.

(** The second loop of [replace]: the text between the matches is copied
    and every match is replaced by what the replacer returns for it. *)
Fixpoint splice (replacer : Match → string) (s : string) (results : list Result)
    (nextSourcePosition : nat) (accumulatedResult : string) : string :=
  match results with
  | [] => accumulatedResult +:+ Str.drop nextSourcePosition s
  | r :: results' =>
      if decide (nextSourcePosition ≤ index r) then
        splice replacer s results' (end_index r)
          (accumulatedResult
             +:+ Str.take (index r - nextSourcePosition) (Str.drop nextSourcePosition s)
             +:+ replacer (groups r))
      else splice replacer s results' nextSourcePosition accumulatedResult
  end.

(** [s.replace(re, replacer)]: [lastIndex] is first set to 0, whatever
    it was. *)
Definition replace (re : Matcher) (s : string) (replacer : Match → string)
    (lastIndex : nat) : option (string * nat) :=
  '(results, lastIndex') ← exec_all (String.length s + 2) re s 0;
  Some (splice replacer s results 0 "", lastIndex').

(** The replacement pattern ["$1"]: the first group, or the empty string
    when it did not take part in the match. *)
Definition dollar1 (m : Match) : string := default "" (group1 m).

End RegExp.

(** ** The placeholder engine, [src/core/placeholders.ts] *)

Module Placeholders.

Import RegExp.

Definition in_range (lo hi c : ascii) : bool :=
  (nat_of_ascii lo <=? nat_of_ascii c) && (nat_of_ascii c <=? nat_of_ascii hi).

(** [[a-zA-Z_]] *)
Definition is_name_start (c : ascii) : bool :=
  in_range "a" "z" c || in_range "A" "Z" c || Ascii.eqb c "_".

(** [[a-zA-Z0-9_-]] *)
Definition is_name_char (c : ascii) : bool :=
  in_range "a" "z" c || in_range "A" "Z" c || in_range "0" "9" c
  || Ascii.eqb c "_" || Ascii.eqb c "-".

(** [[^}]] *)
Definition not_close (c : ascii) : bool := negb (Ascii.eqb c "}").

(** [[{}]] *)
Definition is_brace (c : ascii) : bool := Ascii.eqb c "{" || Ascii.eqb c "}".

(** The longest prefix of [s] in the class [p], and what follows it: a
    greedy [p*]. *)
Fixpoint span (p : ascii → bool) (s : string) : string * string :=
  match s with
  | EmptyString => (EmptyString, EmptyString)
  | String c s' =>
      if p c then let '(a, b) := span p s' in (String c a, b)
      else (EmptyString, s)
  end.

(** [(?<!\\)]: the code unit before the position is not a backslash. *)
Definition after_backslash (prev : option ascii) : bool :=
  match prev with
  | Some c => Ascii.eqb c "\"
  | None => false
  end.

(** The global regular expression [PLACEHOLDER_REGEX] at one position:
    the lookbehind, an opening brace, group 1 (a name start followed by a
    greedy run of name characters), optionally a colon and group 2 (a
    greedy run of code units other than the closing brace), and a closing
    brace.  The name is followed by a colon or a closing brace, neither
    of which is a name character, and the default by a closing brace:
    backtracking into either greedy run cannot turn a failure into a
    match. *)
Definition PLACEHOLDER_REGEX : Matcher := λ prev rest,
  if after_backslash prev then None
  else
    match rest with
    | String open (String c rest1) =>
        if Ascii.eqb open "{" && is_name_start c then
          let '(tl, rest2) := span is_name_char rest1 in
          let name := String c tl in
          match rest2 with
          | String d rest3 =>
              if Ascii.eqb d "}" then
                Some {| full := "{" +:+ name +:+ "}";
                        group1 := Some name; group2 := None |}
              else if Ascii.eqb d ":" then
                let '(dflt, rest4) := span not_close rest3 in
                match rest4 with
                | String e _ =>
                    if Ascii.eqb e "}" then
                      Some {| full := "{" +:+ name +:+ ":" +:+ dflt +:+ "}";
                              group1 := Some name; group2 := Some dflt |}
                    else None
                | EmptyString => None
                end
              else None
          | EmptyString => None
          end
        else None
    | _ => None
    end.

(** The global regular expression [ESCAPED_BRACE_REGEX] at one position:
    a backslash and group 1, one brace. *)
Definition ESCAPED_BRACE_REGEX : Matcher := λ _ rest,
  match rest with
  | String b (String c _) =>
      if Ascii.eqb b "\" && is_brace c then
        Some {| full := String b (String c ""); group1 := Some (String c "");
                group2 := None |}
      else None
  | _ => None
  end.

(** *** The module's state and its functions *)

(** [interface Placeholder] of [src/storage/types.ts]. *)
Record Placeholder := {
  name : string;
  defaultValue : option string;
  required : bool;
  matched : string;
}.

(** The two regular expressions are module constants: their [lastIndex]
    cursors outlive every call. *)
Record Cursors := {
  PLACEHOLDER_lastIndex : nat;
  ESCAPED_BRACE_lastIndex : nat;
}.

(** The state in which the module is loaded. *)
Definition loaded : Cursors :=
  {| PLACEHOLDER_lastIndex := 0; ESCAPED_BRACE_lastIndex := 0 |}.

Definition Placeholder_of (m : Match) : Placeholder :=
  {| name := default "" (group1 m);
     defaultValue := group2 m;
     required := bool_decide (group2 m = None);
     matched := full m |}.

(** The [while] loop of [parsePlaceholders].  [None]: out of fuel. *)
Fixpoint parse_loop (fuel : nat) (command : string) (seen : gset string)
    (placeholders : list Placeholder) (lastIndex : nat)
    : option (list Placeholder * nat) :=
  match fuel with
  | O => None
  | S fuel' =>
      match exec PLACEHOLDER_REGEX command lastIndex with
      | (None, lastIndex') => Some (placeholders, lastIndex')
      | (Some r, lastIndex') =>
          let ph := Placeholder_of (groups r) in
          if decide (name ph ∈ seen) then
            parse_loop fuel' command seen placeholders lastIndex'
          else
            parse_loop fuel' command ({[name ph]} ∪ seen)
              (placeholders ++ [ph]) lastIndex'
      end
  end.

Definition parsePlaceholders (command : string) (σ : Cursors)
    : option (list Placeholder * Cursors) :=
  '(placeholders, lastIndex') ←
    parse_loop (S (String.length command)) command ∅ [] (PLACEHOLDER_lastIndex σ);
  Some (placeholders,
        {| PLACEHOLDER_lastIndex := lastIndex';
           ESCAPED_BRACE_lastIndex := ESCAPED_BRACE_lastIndex σ |}).

Definition hasPlaceholders (command : string) (σ : Cursors) : bool * Cursors :=
  let '(found, lastIndex') := test PLACEHOLDER_REGEX command 0 in
  (found,
   {| PLACEHOLDER_lastIndex := lastIndex';
      ESCAPED_BRACE_lastIndex := ESCAPED_BRACE_lastIndex σ |}).

(** *** Plain objects

    [values] is a plain object: created by an object literal, its
    prototype is [Object.prototype]. *)

(** The names of the properties of [Object.prototype] (ECMAScript,
    Properties of the Object Prototype Object, and its Annex B). *)
Definition Object_prototype : list string :=
  [ "constructor"; "hasOwnProperty"; "isPrototypeOf"; "propertyIsEnumerable";
    "toLocaleString"; "toString"; "valueOf"; "__proto__";
    "__defineGetter__"; "__defineSetter__"; "__lookupGetter__";
    "__lookupSetter__" ].

(** What a property read gives: an own property's string, or the member
    of [Object.prototype] of that name (a function; for [__proto__] the
    getter's result, [Object.prototype] itself). *)
Inductive Value :=
  | Text (s : string)
  | Inherited (member : string).

#[global] Instance Value_eq_dec : EqDecision Value.
Proof. solve_decision. Defined.

Definition inherited (k : string) : bool := bool_decide (k ∈ Object_prototype).

(** [values[k]]; [None] is [undefined]. *)
Definition get (values : gmap string string) (k : string) : option Value :=
  match values !! k with
  | Some s => Some (Text s)
  | None => if inherited k then Some (Inherited k) else None
  end.

(** [k in values]: an own or an inherited property. *)
Definition has_key (k : string) (values : gmap string string) : bool :=
  bool_decide (is_Some (values !! k)) || inherited k.

(** [values[k] = v].  An own property is written, and one is created
    over an inherited data property or where there is none; [__proto__]
    that is not an own property is the accessor of [Object.prototype],
    whose setter ignores a string. *)
Definition put (k v : string) (values : gmap string string) : gmap string string :=
  if bool_decide (k = "__proto__") && bool_decide (values !! k = None)
  then values
  else <[k := v]> values.

Section Host.

(** The text of a member of [Object.prototype], as the engine prints a
    built-in function, or [Object.prototype] for [__proto__]. *)
Variable member_text : string → string.

(** The conversion that [replace] applies to what its callback returns. *)
Definition ToString (v : option Value) : string :=
  match v with
  | Some (Text s) => s
  | Some (Inherited k) => member_text k
  | None => "undefined"
  end.

(** The callback [(match, name, defaultValue) => ...] passed to
    [replace]. *)
Definition replacer (values : gmap string string) (m : Match) : string :=
  let name := default "" (group1 m) in
  if has_key name values
     && bool_decide (get values name ≠ None)
     && bool_decide (get values name ≠ Some (Text ""))
  then ToString (get values name)
  else
    match group2 m with
    | Some defaultValue => defaultValue
    | None => full m
    end.

Definition substitutePlaceholders (command : string)
    (values : gmap string string) (σ : Cursors) : option (string * Cursors) :=
  '(result, li1) ←
    replace PLACEHOLDER_REGEX command (replacer values) (PLACEHOLDER_lastIndex σ);
  '(result', li2) ←
    replace ESCAPED_BRACE_REGEX result dollar1 (ESCAPED_BRACE_lastIndex σ);
  Some (result',
        {| PLACEHOLDER_lastIndex := li1; ESCAPED_BRACE_lastIndex := li2 |}).

End Host.

(** One engine's texts, for the examples: a built-in function prints
    as a function with the body [[native code]], the constructor under
    its own name [Object], and [Object.prototype] as [[object Object]]. *)
Definition native_text (k : string) : string :=
  if bool_decide (k = "__proto__") then "[object Object]"
  else if bool_decide (k = "constructor") then "function Object() { [native code] }"
  else "function " +:+ k +:+ "() { [native code] }".

Record Validation := {
  valid : bool;
  missing : list string;
}.

Definition validatePlaceholderValues (placeholders : list Placeholder)
    (values : gmap string string) : Validation :=
  let missing :=
    foldl (λ missing ph,
             if required ph then
               let value := get values (name ph) in
               if bool_decide (value = None) || bool_decide (value = Some (Text ""))
               then missing ++ [name ph]
               else missing
             else missing)
          [] placeholders in
  {| valid := bool_decide (length missing = 0); missing := missing |}.

Definition buildInitialValues (placeholders : list Placeholder)
    : gmap string string :=
  foldl (λ values ph, put (name ph) (default "" (defaultValue ph)) values)
        ∅ placeholders.

Definition mapArgsToPlaceholders (placeholders : list Placeholder)
    (args : list string) : gmap string string :=
  foldl (λ values i,
           match placeholders !! i, args !! i with
           | Some placeholder, Some arg => put (name placeholder) arg values
           | _, _ => values
           end)
        (buildInitialValues placeholders)
        (seq 0 (length args `min` length placeholders)).

End Placeholders.


(** *** What the specification says, for comparison with the code *)

Module Scanning.

Import RegExp.

(** A scanned string is a sequence of segments: a code unit copied as it
    is, or a match. *)
Inductive Segment :=
  | Lit (c : ascii)
  | Hole (m : Match).

Definition text (g : Segment) : string :=
  match g with
  | Lit c => String c ""
  | Hole m => full m
  end.

Definition render (f : Match → string) (g : Segment) : string :=
  match g with
  | Lit c => String c ""
  | Hole m => f m
  end.

Definition rendered (f : Match → string) (segs : list Segment) : string :=
  Str.concat (render f <$> segs).

Definition hole (g : Segment) : option Match :=
  match g with
  | Lit _ => None
  | Hole m => Some m
  end.

(** The matches of a scan, in the order of their first code unit. *)
Definition holes (segs : list Segment) : list Match := omap hole segs.

Fixpoint lits (s : string) : list Segment :=
  match s with
  | EmptyString => []
  | String c s' => Lit c :: lits s'
  end.

(** One left-to-right scan for non-overlapping matches of the grammar [G],
    started at a position whose previous code unit is [prev]: where a
    match starts it is taken and the scan goes on after it, elsewhere one
    code unit is copied. *)
Inductive Scan (G : option ascii → string → Match → Prop)
    : option ascii → string → list Segment → Prop :=
  | Scan_end prev :
      Scan G prev "" []
  | Scan_lit prev c rest segs :
      (∀ m, ¬ G prev (String c rest) m) →
      Scan G (Some c) rest segs →
      Scan G prev (String c rest) (Lit c :: segs)
  | Scan_hole prev m post segs :
      G prev (full m +:+ post) m →
      full m ≠ "" →
      Scan G (Str.last prev (full m)) post segs →
      Scan G prev (full m +:+ post) (Hole m :: segs).

(** The grammar that a matcher decides. *)
Definition graph (re : Matcher) (prev : option ascii) (rest : string)
    (m : Match) : Prop :=
  re prev rest = Some m.

(** A matcher whose matches are never empty and start the text it is
    given. *)
Definition consumes (re : Matcher) : Prop :=
  ∀ prev rest m,
    re prev rest = Some m → full m ≠ "" ∧ ∃ post, rest = full m +:+ post.

(** The text that a scan was made from. *)
Definition source (segs : list Segment) : string :=
  Str.concat (text <$> segs).

(** The same scan as a function of the matcher; [skip] code units of the
    match taken last are still to be passed over. *)
Fixpoint segments (re : Matcher) (prev : option ascii) (rest : string)
    (skip : nat) : list Segment :=
  match skip, rest with
  | S skip', String c rest' => segments re (Some c) rest' skip'
  | S _, EmptyString => []
  | O, _ =>
      match re prev rest, rest with
      | Some m, String c rest' =>
          Hole m :: segments re (Some c) rest' (String.length (full m) - 1)
      | Some m, EmptyString => [Hole m]
      | None, String c rest' => Lit c :: segments re (Some c) rest' 0
      | None, EmptyString => []
      end
  end.

(** The results that [exec] reports for the matches of a scan that starts
    at index [pos]. *)
Fixpoint results (pos : nat) (segs : list Segment) : list Result :=
  match segs with
  | [] => []
  | Lit _ :: segs' => results (S pos) segs'
  | Hole m :: segs' =>
      {| index := pos; groups := m |}
        :: results (pos + String.length (full m)) segs'
  end.

End Scanning.

Module PlaceholderSpec.

Import RegExp Scanning Placeholders.

(** A name: [[a-zA-Z_][a-zA-Z0-9_-]*]. *)
Definition valid_name (n : string) : Prop :=
  ∃ c tl, n = String c tl ∧ is_name_start c ∧ Str.all is_name_char tl.

(** The grammar: [{name}] or [{name:default}] where the default holds no
    closing brace, not preceded by a backslash.  The template language has
    no way to escape a backslash, so every backslash before an opening
    brace is an unescaped one. *)
Inductive GrammarMatch (prev : option ascii) (rest : string) : Match → Prop :=
  | Match_required n post :
      prev ≠ Some "\"%char →
      valid_name n →
      rest = "{" +:+ n +:+ "}" +:+ post →
      GrammarMatch prev rest
        {| full := "{" +:+ n +:+ "}"; group1 := Some n; group2 := None |}
  | Match_default n d post :
      prev ≠ Some "\"%char →
      valid_name n →
      Str.all not_close d →
      rest = "{" +:+ n +:+ ":" +:+ d +:+ "}" +:+ post →
      GrammarMatch prev rest
        {| full := "{" +:+ n +:+ ":" +:+ d +:+ "}";
           group1 := Some n; group2 := Some d |}.

(** The scan of a template from its start. *)
Definition scan (template : string) : list Segment :=
  segments PLACEHOLDER_REGEX None template 0.

(** The policy for one match: the provided value if it is present and not
    empty, else the declared default, else the matched text. *)
Definition chosen (values : gmap string string) (m : Match) : string :=
  let fallback := default (full m) (group2 m) in
  match values !! default "" (group1 m) with
  | Some v => if decide (v = "") then fallback else v
  | None => fallback
  end.

(** Every backslash followed by a brace is replaced by the brace. *)
Fixpoint unescape (s : string) : string :=
  match s with
  | EmptyString => EmptyString
  | String b s' =>
      match s' with
      | String c s'' =>
          if Ascii.eqb b "\" && is_brace c then String c (unescape s'')
          else String b (unescape s')
      | EmptyString => String b EmptyString
      end
  end.

(** A name that [values] holds no own property for, and that
    [Object.prototype] has a member for: a read of it gives the member. *)
Definition reads_member (values : gmap string string) (k : string) : bool :=
  bool_decide (values !! k = None) && inherited k.

(** The placeholders of a sequence of matches: a match whose name is the
    name of an [earlier] match is skipped. *)
Fixpoint first_wins (earlier : list string) (ms : list Match) : list Placeholder :=
  match ms with
  | [] => []
  | m :: ms' =>
      let ph := Placeholder_of m in
      if decide (name ph ∈ earlier) then first_wins (name ph :: earlier) ms'
      else ph :: first_wins (name ph :: earlier) ms'
  end.

(** One assignment [values[key x] = val x]. *)
Definition assign {X : Type} (key val : X → string)
    (values : gmap string string) (x : X) : gmap string string :=
  put (key x) (val x) values.

(** A code unit that is not a brace. *)
Definition no_brace (c : ascii) : bool := negb (is_brace c).

(** The test that [validatePlaceholderValues] makes of one placeholder. *)
Definition reported (values : gmap string string) (ph : Placeholder) : bool :=
  required ph
  && (bool_decide (get values (name ph) = None)
      || bool_decide (get values (name ph) = Some (Text ""))).

(** A placeholder's value counts as missing when it is absent or empty. *)
Definition is_missing (values : gmap string string) (ph : Placeholder) : bool :=
  required ph
  && (bool_decide (values !! name ph = None)
      || bool_decide (values !! name ph = Some "")).

End PlaceholderSpec.

(** ** Search and default ordering, [src/utils/fuzzy.ts] *)

Module Fuzzy.

(** [interface Command] of [src/storage/types.ts]; the numbers are
    integers. *)
Record Command := {
  id : string;
  command : string;
  description : option string;
  favorite : bool;
  createdAt : Z;
  updatedAt : Z;
  usageCount : Z;
  lastUsed : option Z;
}.

(** What [fuse.search] returns for one record that matches: the record and
    its index in the collection (the score, a floating-point number, is
    never read by [searchCommands]). *)
Record FuseResult := {
  item : Command;
  refIndex : nat;
}.

(** The arrays of commands that are alive, by reference. *)
Abbreviation Store := (gmap nat (list Command)).

(** White space of [String.prototype.trim] among the code units 0..255:
    tab, line feed, vertical tab, form feed, carriage return, space and
    no-break space. *)
Definition is_whitespace (c : ascii) : bool :=
  let n := nat_of_ascii c in
  ((9 <=? n) && (n <=? 13)) || (n =? 32) || (n =? 160).

Fixpoint trimStart (s : string) : string :=
  match s with
  | EmptyString => EmptyString
  | String c s' => if is_whitespace c then trimStart s' else s
  end.

Fixpoint trimEnd (s : string) : string :=
  match s with
  | EmptyString => EmptyString
  | String c s' =>
      let t := trimEnd s' in
      if is_whitespace c && bool_decide (t = "") then EmptyString
      else String c t
  end.

Definition trim (s : string) : string := trimEnd (trimStart s).

(** [Array.prototype.sort(cmp)] on the contents of an array.  ECMAScript
    requires the sort to be stable and, for a consistent comparator, to
    return the elements in an order that the comparator accepts; a stable
    insertion sort is that function. *)
Fixpoint insert_by {A} (cmp : A → A → Z) (x : A) (l : list A) : list A :=
  match l with
  | [] => [x]
  | y :: l' =>
      if (cmp x y <=? 0)%Z then x :: y :: l' else y :: insert_by cmp x l'
  end.

Definition array_sort {A} (cmp : A → A → Z) (l : list A) : list A :=
  foldr (insert_by cmp) [] l.

(** [[...xs]]: a new array with the same elements. *)
Definition spread (xs : nat) (h : Store) : option (nat * Store) :=
  contents ← h !! xs;
  let copy := fresh (dom h) in
  Some (copy, <[copy := contents]> h).

(** [xs.sort(cmp)]: the array [xs] itself is sorted and returned. *)
Definition sort_in_place (cmp : Command → Command → Z) (xs : nat) (h : Store)
    : option (nat * Store) :=
  contents ← h !! xs;
  Some (xs, <[xs := array_sort cmp contents]> h).

(** A new array with the given elements, as [results.map(...)] builds. *)
Definition new_array (contents : list Command) (h : Store) : nat * Store :=
  let a := fresh (dom h) in
  (a, <[a := contents]> h).

Section Host.

(** [String.prototype.localeCompare] is the host's collation. *)
Variable localeCompare : string → string → Z.

(** [new Fuse(commands, FUSE_OPTIONS).search(query)] is the library
    Fuse.js: it reads the collection and returns a new array of
    results. *)
Variable fuse_search : list Command → string → list FuseResult.

(** The comparator of [sortCommands]. *)
Definition compare_commands (a b : Command) : Z :=
  if negb (Bool.eqb (favorite a) (favorite b)) then
    (if favorite a then -1 else 1)%Z
  else if negb (usageCount a =? usageCount b)%Z then
    (usageCount b - usageCount a)%Z
  else localeCompare (id a) (id b).

Definition sortCommands (commands : nat) (h : Store) : option (nat * Store) :=
  '(copy, h1) ← spread commands h;
  sort_in_place compare_commands copy h1.

Definition searchCommands (commands : nat) (query : string) (h : Store)
    : option (nat * Store) :=
  if bool_decide (trim query = "") then sortCommands commands h
  else
    contents ← h !! commands;
    let results := fuse_search contents query in
    let '(matched, h1) := new_array (item <$> results) h in
    sortCommands matched h1.

(** The contents of the array that [sortCommands] returns for an array
    with the contents [cs]. *)
Definition sortDefault (cs : list Command) : list Command :=
  array_sort compare_commands cs.

(** The order that [compare_commands] spells out: favorites first, then
    the higher usage count, then the smaller id. *)
Definition before (a b : Command) : Prop :=
  (favorite a = true ∧ favorite b = false)
  ∨ (favorite a = favorite b ∧ (usageCount b < usageCount a)%Z)
  ∨ (favorite a = favorite b ∧ usageCount a = usageCount b
     ∧ (localeCompare (id a) (id b) < 0)%Z).

Definition triple (a : Command) : bool * Z * string :=
  (favorite a, usageCount a, id a).

(** [a] may stand before [b]: no link of the chain puts [b] first. *)
Definition in_order (a b : Command) : Prop :=
  (favorite b = true → favorite a = true)
  ∧ (favorite a = favorite b → (usageCount b ≤ usageCount a)%Z)
  ∧ (favorite a = favorite b → usageCount a = usageCount b →
     (localeCompare (id a) (id b) ≤ 0)%Z).

(** A collation that orders the strings: it is a total preorder, and only
    equal strings compare equal. *)
Record Collation : Prop := {
  collation_total : ∀ a b, (0 < localeCompare a b)%Z → (localeCompare b a < 0)%Z;
  collation_sym : ∀ a b, (localeCompare a b < 0)%Z → (0 < localeCompare b a)%Z;
  collation_trans :
    ∀ a b c, (localeCompare a b ≤ 0)%Z → (localeCompare b c ≤ 0)%Z →
             (localeCompare a c ≤ 0)%Z;
  collation_eq : ∀ a b, localeCompare a b = 0%Z ↔ a = b;
}.

(** What [searchCommands] relies on from Fuse.js: every result is a record
    of the collection, at its index there, and no record is reported
    twice. *)
Record FuseContract : Prop := {
  fuse_item :
    ∀ contents query r,
      r ∈ fuse_search contents query → contents !! refIndex r = Some (item r);
  fuse_once : ∀ contents query, NoDup (refIndex <$> fuse_search contents query);
}.

End Host.

(** A collation to try the model with: the order of the code units. *)
Fixpoint compare_code_units (a b : string) : Z :=
  match a, b with
  | EmptyString, EmptyString => 0
  | EmptyString, String _ _ => -1
  | String _ _, EmptyString => 1
  | String x a', String y b' =>
      if nat_of_ascii x <? nat_of_ascii y then -1
      else if nat_of_ascii y <? nat_of_ascii x then 1
      else compare_code_units a' b'
  end.

(** A search to try the model with: every record whose id starts with the
    query, the last one first. *)
Fixpoint prefix_matches (i : nat) (query : string) (contents : list Command)
    : list FuseResult :=
  match contents with
  | [] => []
  | c :: contents' =>
      (if String.prefix query (id c)
       then [ {| item := c; refIndex := i |} ] else [])
      ++ prefix_matches (S i) query contents'
  end.

Definition prefix_search (contents : list Command) (query : string)
    : list FuseResult :=
  reverse (prefix_matches 0 query contents).

(** A store with one array of three commands, to try the model with. *)
Definition cmd (i : string) (fav : bool) (usage : Z) : Command :=
  {| id := i; command := "echo " +:+ i; description := None; favorite := fav;
     createdAt := 0; updatedAt := 0; usageCount := usage; lastUsed := None |}.

Definition three : list Command :=
  [cmd "a" false 10; cmd "c" true 1; cmd "b" true 1].

Definition store : Store := {[ 0 := three ]}.

End Fuzzy.

(** ** The callers of the placeholder engine

    [handleExec] and [handleRun] of [src/index.tsx] resolve a saved
    command with the positional arguments of the command line;
    [handleExecute] of [src/tui/App.tsx] resolves it with the values of
    the dialog. *)

Module Callers.

Import RegExp Scanning Placeholders PlaceholderSpec.

(** What the resolution of [handleExec] and [handleRun] ends in: the
    error that lists the missing placeholders, or the resolved command. *)
Inductive Resolution :=
  | MissingRequired (names : list string)
  | Resolved (resolved : string).

(** What [handleExecute] does first: it opens the dialog, or it goes on
    with the resolved command. *)
Inductive Execution :=
  | ShowDialog
  | Run (resolvedCommand : string).

Section Host.

Variable member_text : string → string.

(** The lines of [handleExec] and [handleRun] from [parsePlaceholders] to
    [substitutePlaceholders]. *)
Definition resolve (command : string) (args : list string) (σ : Cursors)
    : option (Resolution * Cursors) :=
  '(placeholders, σ1) ← parsePlaceholders command σ;
  if bool_decide (0 < length placeholders) then
    let values := mapArgsToPlaceholders placeholders args in
    let validation := validatePlaceholderValues placeholders values in
    if negb (valid validation) then
      Some (MissingRequired (missing validation), σ1)
    else
      '(resolved, σ2) ← substitutePlaceholders member_text command values σ1;
      Some (Resolved resolved, σ2)
  else Some (Resolved command, σ1).

(** The lines of [handleExecute] up to [substitutePlaceholders]; [values]
    is [None] when the argument is left out. *)
Definition handleExecute (command : string)
    (values : option (gmap string string)) (σ : Cursors)
    : option (Execution * Cursors) :=
  '(placeholders, σ1) ← parsePlaceholders command σ;
  if bool_decide (0 < length placeholders) && bool_decide (values = None) then
    Some (ShowDialog, σ1)
  else
    let finalValues := default ∅ values in
    '(resolvedCommand, σ2) ←
      substitutePlaceholders member_text command finalValues σ1;
    Some (Run resolvedCommand, σ2).

End Host.




End Callers.

(** ** Ids and commands, [src/core/validation.ts] *)

Module Validation.

Import Placeholders.

(** [RESERVED_KEYWORDS] of [src/storage/types.ts]. *)
Definition RESERVED_KEYWORDS : list string :=
  ["add"; "edit"; "delete"; "rm"; "list"; "ls"; "search"; "fav"; "favorite";
   "favorites"; "favs"; "info"; "export"; "import"; "setup"; "init"; "run";
   "help"].

(** [[a-z0-9]] *)
Definition is_id_char (c : ascii) : bool :=
  in_range "a" "z" c || in_range "0" "9" c.

(** [ID_REGEX], a segment of id characters followed by any number of
    segments that each start with a hyphen, anchored at both ends.  It has
    no [g] flag: [test] looks at the whole string and keeps no cursor.
    [in_segment] tells whether the code unit before is an id character. *)
Fixpoint ID_REGEX_from (in_segment : bool) (s : string) : bool :=
  match s with
  | EmptyString => in_segment
  | String c s' =>
      if is_id_char c then ID_REGEX_from true s'
      else if Ascii.eqb c "-" then in_segment && ID_REGEX_from false s'
      else false
  end.

Definition ID_REGEX_test (s : string) : bool := ID_REGEX_from false s.

Record ValidationResult := {
  valid : bool;
  error : option string;
}.

Definition validateId (id : string) : ValidationResult :=
  if bool_decide (id = "") then
    {| valid := false; error := Some "ID is required" |}
  else if bool_decide (50 < String.length id) then
    {| valid := false; error := Some "ID must be 50 characters or less" |}
  else if bool_decide (id ∈ RESERVED_KEYWORDS) then
    {| valid := false;
       error := Some ("'" +:+ id
                      +:+ "' is a reserved keyword and cannot be used as a command ID") |}
  else if negb (ID_REGEX_test id) then
    {| valid := false;
       error := Some "ID must be lowercase alphanumeric with hyphens (e.g., 'my-command', 'test-123')" |}
  else {| valid := true; error := None |}.

Definition validateCommand (command : string) : ValidationResult :=
  if bool_decide (command = "") then
    {| valid := false; error := Some "Command is required" |}
  else if bool_decide (2000 < String.length command) then
    {| valid := false; error := Some "Command must be 2000 characters or less" |}
  else {| valid := true; error := None |}.

(** [String.prototype.toLowerCase] on the code units 0..255: the letters
    A to Z and the capital letters of Latin-1 move up by 32. *)
Definition lower_unit (c : ascii) : ascii :=
  let n := nat_of_ascii c in
  if ((65 <=? n) && (n <=? 90)) || ((192 <=? n) && (n <=? 214))
     || ((216 <=? n) && (n <=? 222))
  then ascii_of_nat (n + 32) else c.

Fixpoint toLowerCase (s : string) : string :=
  match s with
  | EmptyString => EmptyString
  | String c s' => String (lower_unit c) (toLowerCase s')
  end.

Definition normalizeId (id : string) : string :=
  Fuzzy.trim (toLowerCase id).

Definition looksLikeId (str : string) : bool :=
  ID_REGEX_test (toLowerCase str).

(** What the comment on [ID_REGEX] says, for comparison: no hyphen is
    followed by a hyphen. *)
Fixpoint no_consecutive_hyphens (s : string) : bool :=
  match s with
  | EmptyString => true
  | String a s' =>
      match s' with
      | String b _ =>
          negb (Ascii.eqb a "-" && Ascii.eqb b "-") && no_consecutive_hyphens s'
      | EmptyString => true
      end
  end.

Definition first_unit (s : string) : option ascii :=
  match s with
  | EmptyString => None
  | String c _ => Some c
  end.

(** The shape of an id, given whether the code unit before is an id
    character: id characters and hyphens only, no hyphen after a hyphen,
    an id character first and an id character last. *)
Definition shape (in_segment : bool) (s : string) : bool :=
  Str.all (λ c, is_id_char c || Ascii.eqb c "-") s
  && no_consecutive_hyphens s
  && (in_segment || from_option is_id_char false (first_unit s))
  && from_option is_id_char false
       (Str.last (Some (if in_segment then "a" else "-")%char) s).

End Validation.

(** ** The command line, [src/cli/parser.ts] *)

Module Parser.

Import Placeholders.

Definition SUBCOMMANDS : list string :=
  ["add"; "edit"; "delete"; "rm"; "list"; "ls"; "search"; "fav"; "favorite";
   "favorites"; "favs"; "info"; "export"; "import"; "setup"; "init"; "run"].

Record Flags := {
  help : bool;
  version : bool;
  exec : bool;
  raw : bool;
  noTui : bool;
  output : option string;
}.

Record ParsedArgs := {
  subcommand : option string;
  commandId : option string;
  args : list string;
  flags : Flags;
}.

Definition no_flags : Flags :=
  {| help := false; version := false; exec := false; raw := false;
     noTui := false; output := None |}.

Definition set_help (f : Flags) : Flags :=
  {| help := true; version := version f; exec := exec f; raw := raw f;
     noTui := noTui f; output := output f |}.

Definition set_version (f : Flags) : Flags :=
  {| help := help f; version := true; exec := exec f; raw := raw f;
     noTui := noTui f; output := output f |}.

Definition set_exec (f : Flags) : Flags :=
  {| help := help f; version := version f; exec := true; raw := raw f;
     noTui := noTui f; output := output f |}.

Definition set_raw (f : Flags) : Flags :=
  {| help := help f; version := version f; exec := exec f; raw := true;
     noTui := noTui f; output := output f |}.

Definition set_noTui (f : Flags) : Flags :=
  {| help := help f; version := version f; exec := exec f; raw := raw f;
     noTui := true; output := output f |}.

Definition set_output (value : string) (f : Flags) : Flags :=
  {| help := help f; version := version f; exec := exec f; raw := raw f;
     noTui := noTui f; output := Some value |}.

Definition is_format (value : string) : bool :=
  bool_decide (value = "json") || bool_decide (value = "table").

Definition not_equals (c : ascii) : bool := negb (Ascii.eqb c "=").

(** [arg.split("=")[1]]: what stands between the first and the second
    equals sign; [None] when there is no equals sign. *)
Definition split_1 (arg : string) : option string :=
  match (span not_equals arg).2 with
  | String _ rest => Some (span not_equals rest).1
  | EmptyString => None
  end.

(** An [--output=...] or [-o=...] argument sets the format when its value
    is one. *)
Definition set_output_of (arg : string) (f : Flags) : Flags :=
  match split_1 arg with
  | Some value => if is_format value then set_output value f else f
  | None => f
  end.

(** The [while] loop of [parseArgs]; an index that moves on by two is a
    step to the tail of the tail. *)
Fixpoint scan_args (args : list string) (flags : Flags)
    (positionalArgs : list string) : Flags * list string :=
  match args with
  | [] => (flags, positionalArgs)
  | arg :: rest =>
      if bool_decide (arg = "--help") || bool_decide (arg = "-h") then
        scan_args rest (set_help flags) positionalArgs
      else if bool_decide (arg = "--version") || bool_decide (arg = "-v") then
        scan_args rest (set_version flags) positionalArgs
      else if bool_decide (arg = "--exec") then
        scan_args rest (set_exec flags) positionalArgs
      else if bool_decide (arg = "--raw") || bool_decide (arg = "-r") then
        scan_args rest (set_raw flags) positionalArgs
      else if bool_decide (arg = "--no-tui") then
        scan_args rest (set_noTui flags) positionalArgs
      else if bool_decide (arg = "--output") || bool_decide (arg = "-o") then
        match rest with
        | nextArg :: rest' =>
            if is_format nextArg then
              scan_args rest' (set_output nextArg flags) positionalArgs
            else scan_args rest flags positionalArgs
        | [] => scan_args rest flags positionalArgs
        end
      else if String.prefix "--output=" arg then
        scan_args rest (set_output_of arg flags) positionalArgs
      else if String.prefix "-o=" arg then
        scan_args rest (set_output_of arg flags) positionalArgs
      else
        scan_args rest flags
          (if bool_decide (arg ≠ "") then positionalArgs ++ [arg]
           else positionalArgs)
  end.

Definition parseArgs (argv : list string) : ParsedArgs :=
  let args := drop 2 argv in
  let '(flags, positionalArgs) := scan_args args no_flags [] in
  match positionalArgs with
  | [] =>
      {| subcommand := None; commandId := None; args := []; flags := flags |}
  | firstArg :: _ =>
      if bool_decide (firstArg ≠ "") && bool_decide (firstArg ∈ SUBCOMMANDS) then
        {| subcommand := Some firstArg; commandId := positionalArgs !! 1;
           args := drop 2 positionalArgs; flags := flags |}
      else
        {| subcommand := None; commandId := Some firstArg;
           args := drop 1 positionalArgs; flags := flags |}
  end.

Definition isReservedKeyword (str : string) : bool :=
  bool_decide (str ∈ Validation.RESERVED_KEYWORDS).

(** An argument that the loop takes for a flag or drops. *)
Definition is_flag (arg : string) : bool :=
  bool_decide (arg ∈ ["--help"; "-h"; "--version"; "-v"; "--exec"; "--raw";
                      "-r"; "--no-tui"; "--output"; "-o"])
  || String.prefix "--output=" arg || String.prefix "-o=" arg.

End Parser.

(** * Properties *)

Module StrFacts.

Import Str.

Lemma app_nil_l (s : string) : "" +:+ s = s.
Proof. reflexivity. Qed.

Lemma app_cons (c : ascii) (s t : string) :
  String c s +:+ t = String c (s +:+ t).
Proof. reflexivity. Qed.

Lemma app_nil_r (s : string) : s +:+ "" = s.
Proof. induction s as [|c s IH]; [done|]. by rewrite app_cons, IH. Qed.

Lemma app_assoc (s t u : string) : (s +:+ t) +:+ u = s +:+ (t +:+ u).
Proof. induction s as [|c s IH]; [done|]. by rewrite !app_cons, IH. Qed.

Lemma length_app (s t : string) :
  String.length (s +:+ t) = String.length s + String.length t.
Proof. induction s as [|c s IH]; [done|]. rewrite app_cons. simpl. lia. Qed.

Lemma all_app p s t : all p (s +:+ t) = all p s && all p t.
Proof.
  induction s as [|c s IH]; [done|].
  rewrite app_cons. simpl. rewrite IH. by rewrite andb_assoc.
Qed.

Lemma last_app d s t : last d (s +:+ t) = last (last d s) t.
Proof.
  revert d. induction s as [|c s IH]; intros d; [done|].
  rewrite app_cons. simpl. apply IH.
Qed.

Lemma take_drop n s : take n s +:+ drop n s = s.
Proof.
  revert s. induction n as [|n IH]; intros [|c s]; try done.
  simpl. rewrite app_cons. by rewrite IH.
Qed.

Lemma length_take n s : n ≤ String.length s → String.length (take n s) = n.
Proof.
  revert s. induction n as [|n IH]; intros [|c s] H; simpl in *; try done.
  - lia.
  - rewrite IH; lia.
Qed.

Lemma length_drop n s : String.length (drop n s) = String.length s - n.
Proof.
  revert s. induction n as [|n IH]; intros [|c s]; simpl; done.
Qed.

Lemma drop_app_length s t : drop (String.length s) (s +:+ t) = t.
Proof. induction s as [|c s IH]; [by destruct t|]. by rewrite app_cons. Qed.

Lemma take_app_length s t : take (String.length s) (s +:+ t) = s.
Proof.
  induction s as [|c s IH]; [by destruct t|].
  rewrite app_cons. simpl. by rewrite IH.
Qed.

Lemma concat_app l1 l2 : concat (l1 ++ l2) = concat l1 +:+ concat l2.
Proof.
  induction l1 as [|s l1 IH]; [done|].
  simpl. by rewrite IH, app_assoc.
Qed.

End StrFacts.

(** ** The scan that [exec] and [replace] perform *)

Module ScanningFacts.

Import Str StrFacts RegExp Scanning.

Lemma length_pos_nonempty (s : string) : s ≠ "" → 0 < String.length s.
Proof. destruct s; [done|simpl; lia]. Qed.

Lemma source_cons g segs : source (g :: segs) = text g +:+ source segs.
Proof. reflexivity. Qed.

Lemma rendered_cons f g segs :
  rendered f (g :: segs) = render f g +:+ rendered f segs.
Proof. reflexivity. Qed.

Lemma rendered_app f segs1 segs2 :
  rendered f (segs1 ++ segs2) = rendered f segs1 +:+ rendered f segs2.
Proof. unfold rendered. by rewrite fmap_app, concat_app. Qed.

Lemma rendered_lits f s : rendered f (lits s) = s.
Proof.
  induction s as [|c s IH]; [done|].
  simpl. rewrite rendered_cons, IH. reflexivity.
Qed.

Lemma holes_lits s : holes (lits s) = [].
Proof. induction s as [|c s IH]; [done|]. exact IH. Qed.

Lemma results_lits pos gap segs :
  results pos (lits gap ++ segs) = results (pos + String.length gap) segs.
Proof.
  revert pos. induction gap as [|c gap IH]; intros pos; simpl.
  - by rewrite Nat.add_0_r.
  - rewrite IH. f_equal. lia.
Qed.

Lemma Scan_source G prev rest segs : Scan G prev rest segs → source segs = rest.
Proof.
  induction 1 as [prev|prev c rest segs _ _ IH|prev m post segs _ _ _ IH].
  - reflexivity.
  - rewrite source_cons, IH. reflexivity.
  - rewrite source_cons, IH. reflexivity.
Qed.

Lemma Scan_ext (G G' : option ascii → string → Match → Prop) prev rest segs :
  (∀ p r m, G p r m ↔ G' p r m) → Scan G prev rest segs → Scan G' prev rest segs.
Proof.
  intros HG. induction 1 as [prev|prev c rest segs Hno _ IH|prev m post segs Hm Hne _ IH].
  - constructor.
  - constructor; [|done]. intros m Hm. apply (Hno m). by apply HG.
  - constructor; [by apply HG|done|done].
Qed.

(** A scan is determined by the text. *)
Lemma Scan_det G prev rest segs1 segs2 :
  (∀ p r m1 m2, G p r m1 → G p r m2 → m1 = m2) →
  Scan G prev rest segs1 → Scan G prev rest segs2 → segs1 = segs2.
Proof.
  intros Hdet H1. revert segs2.
  induction H1 as [prev|prev c rest segs Hno _ IH|prev m post segs Hm Hne _ IH];
    intros segs2 H2.
  - remember "" as rest eqn:Hrest.
    destruct H2 as [prev|prev c rest segs' Hno' _|prev m' post' segs' Hm' Hne' Hs'];
      [done|done|].
    destruct (full m'); [done|discriminate].
  - remember (String c rest) as rest0 eqn:Hrest.
    destruct H2 as [prev|prev c' rest' segs' Hno' Hs'|prev m' post' segs' Hm' _ Hs'].
    + done.
    + injection Hrest as -> ->. f_equal. by apply IH.
    + exfalso. by apply (Hno m').
  - remember (full m +:+ post) as rest eqn:Hrest.
    destruct H2 as [prev|prev c rest segs' Hno' _|prev m' post' segs' Hm' _ Hs'].
    + destruct (full m); [done|discriminate].
    + exfalso. apply (Hno' m). first [done | by rewrite Hrest].
    + assert (m' = m) as ->.
      { apply (Hdet prev (full m +:+ post)); first [done | by rewrite <- Hrest]. }
      f_equal. apply IH.
      assert (post' = post) as ->; [|done].
      clear -Hrest. induction (full m) as [|c s IHs]; [done|].
      rewrite !app_cons in Hrest. injection Hrest as Hrest. by apply IHs.
Qed.

Section Matcher.

Variable re : Matcher.
Hypothesis re_consumes : consumes re.

Lemma segments_skip a b prev :
  segments re prev (a +:+ b) (String.length a) = segments re (last prev a) b 0.
Proof.
  revert prev. induction a as [|c a IH]; intros prev; [done|].
  rewrite app_cons. simpl. apply IH.
Qed.

Lemma segments_lit prev c rest :
  re prev (String c rest) = None →
  segments re prev (String c rest) 0 = Lit c :: segments re (Some c) rest 0.
Proof. intros H. simpl. by rewrite H. Qed.

Lemma segments_hole prev m post :
  re prev (full m +:+ post) = Some m →
  segments re prev (full m +:+ post) 0
  = Hole m :: segments re (last prev (full m)) post 0.
Proof.
  intros H. destruct (re_consumes _ _ _ H) as [Hne _].
  destruct (full m) as [|c s] eqn:Hfull; [done|].
  rewrite app_cons in *. simpl. rewrite H, Hfull. simpl.
  rewrite Nat.sub_0_r. f_equal. apply segments_skip.
Qed.

Lemma segments_Scan rest prev :
  Scan (graph re) prev rest (segments re prev rest 0).
Proof.
  remember (String.length rest) as n eqn:Hn.
  revert rest prev Hn. induction (lt_wf n) as [n _ IH]. intros rest prev ->.
  destruct (re prev rest) as [m|] eqn:Hre.
  - destruct (re_consumes _ _ _ Hre) as [Hne [post ->]].
    rewrite segments_hole by done. constructor; [done..|].
    eapply IH; [|done]. rewrite length_app.
    pose proof (length_pos_nonempty _ Hne). lia.
  - destruct rest as [|c rest].
    + simpl. rewrite Hre. constructor.
    + rewrite segments_lit by done. constructor.
      * intros m Hm. unfold graph in Hm. congruence.
      * eapply IH; [|done]. simpl. lia.
Qed.

Lemma segments_source rest prev : source (segments re prev rest 0) = rest.
Proof. eapply Scan_source, segments_Scan. Qed.

(** [search] finds the first match of the scan, if it has one. *)
Lemma search_None prev rest pos :
  search re prev rest pos = None → segments re prev rest 0 = lits rest.
Proof.
  revert prev pos. induction rest as [|c rest IH]; intros prev pos; simpl.
  - by destruct (re prev "").
  - destruct (re prev (String c rest)); [done|].
    intros H. f_equal. by eapply IH.
Qed.

Lemma search_Some prev rest pos r :
  search re prev rest pos = Some r →
  ∃ gap post,
    rest = gap +:+ full (groups r) +:+ post
    ∧ index r = pos + String.length gap
    ∧ segments re prev rest 0
      = lits gap
          ++ Hole (groups r)
          :: segments re (last prev (gap +:+ full (groups r))) post 0.
Proof.
  revert prev pos. induction rest as [|c rest IH]; intros prev pos.
  - simpl. destruct (re prev "") as [m|] eqn:Hre; [|done].
    intros _. destruct (re_consumes _ _ _ Hre) as [Hne [post Hpost]].
    destruct (full m); [done|discriminate].
  - simpl search. destruct (re prev (String c rest)) as [m|] eqn:Hre.
    + intros [= <-]. destruct (re_consumes _ _ _ Hre) as [_ [post Hpost]].
      exists "", post. simpl index. simpl groups. rewrite Hpost in Hre |- *.
      split_and!; [done|simpl; lia|]. by apply segments_hole.
    + intros H. destruct (IH _ _ H) as (gap & post & -> & Hidx & Hsegs).
      exists (String c gap), post. rewrite !app_cons.
      split_and!; [done|simpl; lia|].
      rewrite segments_lit by done.
      rewrite Hsegs. reflexivity.
Qed.

Lemma search_nonempty prev rest pos r :
  search re prev rest pos = Some r → full (groups r) ≠ "".
Proof.
  revert prev pos. induction rest as [|c rest IH]; intros prev pos; simpl.
  - destruct (re prev "") eqn:Hre; [|done]. intros [= <-].
    by destruct (re_consumes _ _ _ Hre).
  - destruct (re prev (String c rest)) eqn:Hre; [|by apply IH].
    intros [= <-]. by destruct (re_consumes _ _ _ Hre).
Qed.

Lemma prev_at_app pre rest :
  prev_at (String.length pre) (pre +:+ rest) = last None pre.
Proof. unfold prev_at. by rewrite take_app_length. Qed.

(** The loop of [replace] reports the matches of one scan from the start
    and leaves [lastIndex] at 0. *)
Lemma exec_all_spec fuel pre rest :
  String.length rest < fuel →
  exec_all fuel re (pre +:+ rest) (String.length pre)
  = Some (results (String.length pre) (segments re (last None pre) rest 0), 0).
Proof.
  revert pre rest. induction fuel as [|fuel IH]; intros pre rest Hfuel; [lia|].
  simpl. unfold exec. rewrite length_app.
  destruct (decide _) as [?|_]; [lia|].
  rewrite prev_at_app, drop_app_length.
  destruct (search re (last None pre) rest (String.length pre)) as [r|] eqn:Hs.
  - destruct (search_Some _ _ _ _ Hs) as (gap & post & -> & Hidx & ->).
    destruct r as [i m]; simpl in *. subst i.
    pose proof (search_nonempty _ _ _ _ Hs) as re_full. simpl in re_full.
    destruct (decide (full m = "")) as [?|_]; [done|].
    unfold end_index; simpl.
    rewrite <- !app_assoc.
    replace (String.length pre + String.length gap + String.length (full m))
      with (String.length ((pre +:+ gap) +:+ full m))
      by (rewrite !length_app; lia).
    rewrite IH.
    2:{ rewrite !length_app in Hfuel.
        pose proof (length_pos_nonempty _ re_full). lia. }
    simpl. rewrite results_lits. simpl.
    rewrite !last_app, !length_app. reflexivity.
  - simpl. rewrite (search_None _ _ _ Hs).
    rewrite <- (List.app_nil_r (lits rest)), results_lits. reflexivity.
Qed.

(** The second loop of [replace] copies the text between the matches and
    renders every match. *)
Lemma splice_spec f segs pre gap acc :
  splice f (pre +:+ gap +:+ source segs)
    (results (String.length (pre +:+ gap)) segs) (String.length pre) acc
  = acc +:+ gap +:+ rendered f segs.
Proof.
  revert pre gap acc. induction segs as [|[c|m] segs IH]; intros pre gap acc.
  - simpl. unfold source, rendered. simpl.
    by rewrite drop_app_length.
  - simpl results. rewrite source_cons, rendered_cons. simpl text. simpl render.
    specialize (IH pre (gap +:+ String c "") acc).
    rewrite !length_app in *. simpl in IH.
    replace (S (String.length pre + String.length gap))
      with (String.length pre + (String.length gap + 1)) by lia.
    rewrite !app_assoc in IH. exact IH.
  - simpl results. rewrite source_cons, rendered_cons. simpl text. simpl render.
    simpl splice. rewrite !length_app.
    destruct (decide _) as [_|?]; [|lia].
    unfold end_index. simpl.
    replace (String.length pre + String.length gap - String.length pre)
      with (String.length gap) by lia.
    rewrite drop_app_length, take_app_length.
    specialize (IH ((pre +:+ gap) +:+ full m) "" ((acc +:+ gap) +:+ f m)).
    rewrite !length_app in IH. simpl in IH.
    rewrite !app_assoc, !app_nil_l, Nat.add_0_r in IH.
    exact IH.
Qed.

(** [s.replace(re, f)] renders one scan of [s], whatever [lastIndex] was,
    and leaves it at 0. *)
Lemma replace_spec s f lastIndex :
  replace re s f lastIndex = Some (rendered f (segments re None s 0), 0).
Proof.
  unfold replace.
  pose proof (exec_all_spec (String.length s + 2) "" s) as H.
  rewrite app_nil_l in H. change (String.length "") with 0 in H.
  change (last None "") with (@None ascii) in H.
  rewrite H by lia. simpl. f_equal. f_equal.
  pose proof (splice_spec f (segments re None s 0) "" "" "") as Hs.
  rewrite segments_source, !app_nil_l in Hs. exact Hs.
Qed.


End Matcher.

End ScanningFacts.

(** ** The two regular expressions *)

Module RegexFacts.

Import Str StrFacts RegExp Scanning ScanningFacts Placeholders PlaceholderSpec.

Lemma span_app p a b :
  all p a → (∀ c b', b = String c b' → p c = false) → span p (a +:+ b) = (a, b).
Proof.
  intros Ha Hb. induction a as [|c a IH].
  - rewrite app_nil_l. destruct b as [|c b']; [done|].
    simpl. by rewrite (Hb c b').
  - rewrite app_cons. simpl in *. apply andb_prop_elim in Ha as [Hc Ha].
    destruct (p c); [|done]. by rewrite IH.
Qed.

Lemma span_spec p s a b :
  span p s = (a, b) →
  s = a +:+ b ∧ all p a ∧ ∀ c b', b = String c b' → p c = false.
Proof.
  revert a b. induction s as [|c s IH]; intros a b; simpl.
  - intros [= <- <-]. done.
  - destruct (p c) eqn:Hc.
    + destruct (span p s) as [a' b'] eqn:Hs. intros [= <- <-].
      destruct (IH _ _ eq_refl) as (-> & Ha & Hb).
      rewrite app_cons. simpl. rewrite Hc. done.
    + intros [= <- <-]. split_and!; [done..|]. by intros ? ? [= <- <-].
Qed.

Lemma after_backslash_false prev :
  after_backslash prev = false ↔ prev ≠ Some "\"%char.
Proof.
  destruct prev as [c|]; simpl; [|done].
  destruct (Ascii.eqb_spec c "\"); split; congruence.
Qed.

Lemma close_not_name_char : is_name_char "}" = false.
Proof. reflexivity. Qed.

Lemma colon_not_name_char : is_name_char ":" = false.
Proof. reflexivity. Qed.

(** The matcher finds nothing but matches of the grammar. *)
Lemma PLACEHOLDER_REGEX_sound prev rest m :
  PLACEHOLDER_REGEX prev rest = Some m → GrammarMatch prev rest m.
Proof.
  unfold PLACEHOLDER_REGEX.
  destruct (after_backslash prev) eqn:Hprev; [done|].
  apply after_backslash_false in Hprev.
  destruct rest as [|open [|c rest1]]; [done..|].
  destruct (Ascii.eqb_spec open "{") as [->|]; [|done]. simpl.
  destruct (is_name_start c) eqn:Hc; [|done].
  destruct (span is_name_char rest1) as [tl rest2] eqn:Hspan.
  destruct (span_spec _ _ _ _ Hspan) as (-> & Htl & _).
  assert (Hname : valid_name (String c tl)).
  { exists c, tl. rewrite Hc. done. }
  destruct rest2 as [|d rest3]; [done|].
  destruct (Ascii.eqb_spec d "}") as [->|Hd].
  - intros [= <-]. by apply (Match_required _ _ (String c tl) rest3).
  - destruct (Ascii.eqb_spec d ":") as [->|]; [|done].
    destruct (span not_close rest3) as [dflt rest4] eqn:Hspan2.
    destruct (span_spec _ _ _ _ Hspan2) as (-> & Hdflt & _).
    destruct rest4 as [|e rest5]; [done|].
    destruct (Ascii.eqb_spec e "}") as [->|]; [|done].
    intros [= <-]. by apply (Match_default _ _ (String c tl) dflt rest5).
Qed.

(** The matcher finds every match of the grammar. *)
Lemma PLACEHOLDER_REGEX_complete prev rest m :
  GrammarMatch prev rest m → PLACEHOLDER_REGEX prev rest = Some m.
Proof.
  intros [n post Hprev (c & tl & -> & Hc & Htl) ->
         |n d post Hprev (c & tl & -> & Hc & Htl) Hd ->];
    unfold PLACEHOLDER_REGEX;
    apply after_backslash_false in Hprev; rewrite Hprev;
    rewrite !app_cons, app_nil_l; simpl;
    destruct (is_name_start c); try done; simpl.
  - rewrite span_app; [done..|]. by intros ? ? [= <- <-].
  - rewrite span_app; [|done|by intros ? ? [= <- <-]].
    rewrite ?app_cons, ?app_nil_l. simpl. rewrite ?app_nil_l.
    rewrite span_app; [|done|by intros ? ? [= <- <-]].
    simpl. by rewrite ?app_cons, ?app_nil_l.
Qed.

Lemma PLACEHOLDER_REGEX_spec prev rest m :
  graph PLACEHOLDER_REGEX prev rest m ↔ GrammarMatch prev rest m.
Proof.
  split; [apply PLACEHOLDER_REGEX_sound|apply PLACEHOLDER_REGEX_complete].
Qed.

(** At one position the grammar has at most one match. *)
Lemma GrammarMatch_unique prev rest m1 m2 :
  GrammarMatch prev rest m1 → GrammarMatch prev rest m2 → m1 = m2.
Proof.
  intros H1%PLACEHOLDER_REGEX_complete H2%PLACEHOLDER_REGEX_complete.
  congruence.
Qed.

Lemma GrammarMatch_prefix prev rest m :
  GrammarMatch prev rest m → full m ≠ "" ∧ ∃ post, rest = full m +:+ post.
Proof.
  intros [n post _ _ ->|n d post _ _ _ ->]; simpl; (split; [done|]); exists post;
    by rewrite !app_assoc.
Qed.

Lemma PLACEHOLDER_REGEX_consumes : consumes PLACEHOLDER_REGEX.
Proof.
  intros prev rest m H. by apply (GrammarMatch_prefix prev), PLACEHOLDER_REGEX_sound.
Qed.

Lemma ESCAPED_BRACE_REGEX_consumes : consumes ESCAPED_BRACE_REGEX.
Proof.
  intros prev [|b [|c rest]] m; simpl; [done..|].
  destruct (Ascii.eqb b "\" && is_brace c); [|done].
  intros [= <-]. simpl. split; [done|]. by exists rest.
Qed.

(** Every match of the grammar has a name. *)
Lemma GrammarMatch_group1 prev rest m :
  GrammarMatch prev rest m → ∃ n, group1 m = Some n ∧ valid_name n.
Proof. intros [n post _ Hn _|n d post _ Hn _ _]; by exists n. Qed.

End RegexFacts.

(** ** The placeholder engine *)

Module PlaceholderFacts.

Import Str StrFacts RegExp Scanning ScanningFacts.
Import Placeholders PlaceholderSpec RegexFacts.

(** The scan of a template is a scan for the grammar. *)
Lemma scan_Scan template : Scan GrammarMatch None template (scan template).
Proof.
  eapply Scan_ext; [apply PLACEHOLDER_REGEX_spec|].
  apply segments_Scan, PLACEHOLDER_REGEX_consumes.
Qed.

Lemma Scan_scan template segs :
  Scan GrammarMatch None template segs → segs = scan template.
Proof.
  intros H. eapply Scan_det; [apply GrammarMatch_unique|done|apply scan_Scan].
Qed.

(** A property read, by cases. *)
Lemma get_own values k v : values !! k = Some v → get values k = Some (Text v).
Proof. unfold get. by intros ->. Qed.

Lemma get_member values k :
  reads_member values k = true → get values k = Some (Inherited k).
Proof.
  unfold reads_member, get. intros [Hk Hi]%andb_true_iff.
  apply bool_decide_eq_true in Hk. by rewrite Hk, Hi.
Qed.

Lemma get_plain values k :
  reads_member values k = false →
  get values k = Text <$> values !! k.
Proof.
  unfold reads_member, get. intros H.
  destruct (values !! k) as [v|]; [done|].
  rewrite bool_decide_eq_true_2 in H by done. simpl in H. by rewrite H.
Qed.

Lemma has_key_member values k : reads_member values k = true → has_key k values = true.
Proof.
  unfold reads_member, has_key. intros [_ ->]%andb_true_iff.
  apply orb_true_r.
Qed.

(** The callback of [substitutePlaceholders] returns the text of the
    inherited member for a name that reads one, and is the policy for
    every other name. *)
Lemma replacer_member member_text values m :
  reads_member values (default "" (group1 m)) = true →
  replacer member_text values m = member_text (default "" (group1 m)).
Proof.
  intros H. unfold replacer.
  by rewrite (has_key_member _ _ H), (get_member _ _ H).
Qed.

Lemma replacer_chosen member_text values m :
  reads_member values (default "" (group1 m)) = false →
  replacer member_text values m = chosen values m.
Proof.
  intros H. unfold replacer, chosen, has_key.
  rewrite (get_plain _ _ H).
  destruct (values !! default "" (group1 m)) as [v|] eqn:Hv; simpl.
  - destruct (decide (v = "")) as [->|Hne].
    + rewrite bool_decide_eq_false_2 by (intros ?; congruence).
      by destruct (group2 m).
    + rewrite bool_decide_eq_true_2 by congruence. done.
  - rewrite andb_false_r. simpl. by destruct (group2 m).
Qed.

Lemma rendered_ext f g segs :
  (∀ m, f m = g m) → rendered f segs = rendered g segs.
Proof.
  intros H. unfold rendered. f_equal. apply list_fmap_ext.
  intros _ [c|m] _; simpl; [done|apply H].
Qed.

(** Replacing with [ESCAPED_BRACE_REGEX] and ["$1"] is [unescape]. *)
Lemma unescape_segments s prev :
  rendered dollar1 (segments ESCAPED_BRACE_REGEX prev s 0) = unescape s.
Proof.
  remember (String.length s) as n eqn:Hn.
  revert s prev Hn. induction (lt_wf n) as [n _ IH]. intros s prev ->.
  destruct s as [|b [|c s'']]; [done..|].
  simpl unescape. destruct (Ascii.eqb b "\" && is_brace c) eqn:Hbc.
  - set (m := {| full := String b (String c ""); group1 := Some (String c "");
                 group2 := None |}).
    change (String b (String c s'')) with (full m +:+ s'').
    rewrite (segments_hole _ ESCAPED_BRACE_REGEX_consumes).
    2:{ simpl. by rewrite Hbc. }
    rewrite rendered_cons. simpl render. unfold dollar1 at 1. simpl.
    rewrite app_cons, app_nil_l. f_equal.
    eapply IH; [|done]. simpl. lia.
  - rewrite segments_lit by (simpl; by rewrite Hbc).
    rewrite rendered_cons. simpl render. rewrite app_cons, app_nil_l. f_equal.
    eapply IH; [|done]. simpl. lia.
Qed.

Lemma groups_results pos segs : groups <$> results pos segs = holes segs.
Proof.
  revert pos. induction segs as [|[c|m] segs IH]; intros pos; simpl.
  - done.
  - apply IH.
  - unfold holes. simpl. f_equal. apply IH.
Qed.

Lemma exec_nonempty s lastIndex r lastIndex' :
  exec PLACEHOLDER_REGEX s lastIndex = (Some r, lastIndex') →
  full (groups r) ≠ "".
Proof.
  unfold exec. destruct (decide _); [done|].
  destruct (search _ _ _ _) as [r'|] eqn:Hs; [|done].
  intros [= <- _]. eapply search_nonempty; [apply PLACEHOLDER_REGEX_consumes|done].
Qed.

(** The [while] loop of [parsePlaceholders] makes the calls to [exec] that
    [replace] makes, and keeps the first match of every name. *)
Lemma parse_loop_exec_all fuel command earlier placeholders lastIndex :
  parse_loop fuel command (list_to_set earlier) placeholders lastIndex
  = '(rs, lastIndex') ← exec_all fuel PLACEHOLDER_REGEX command lastIndex;
    Some (placeholders ++ first_wins earlier (groups <$> rs), lastIndex').
Proof.
  revert earlier placeholders lastIndex.
  induction fuel as [|fuel IH]; intros earlier placeholders lastIndex; [done|].
  simpl. destruct (exec PLACEHOLDER_REGEX command lastIndex) as [[r|] li] eqn:He.
  - pose proof (exec_nonempty _ _ _ _ He) as Hne.
    destruct (decide (full (groups r) = "")) as [?|_]; [done|].
    set (n := default "" (group1 (groups r))).
    destruct (decide (n ∈ (list_to_set earlier : gset string))) as [Hin|Hin].
    + assert ((list_to_set earlier : gset string) = list_to_set (n :: earlier))
        as -> by (simpl; set_solver).
      rewrite IH. destruct (exec_all fuel _ _ _) as [[rs li']|]; [|done].
      simpl. fold n. rewrite decide_True by set_solver. done.
    + change ({[n]} ∪ list_to_set earlier : gset string)
        with (list_to_set (n :: earlier) : gset string).
      rewrite IH. destruct (exec_all fuel _ _ _) as [[rs li']|]; [|done].
      simpl. fold n. rewrite decide_False by set_solver.
      by rewrite <- List.app_assoc.
  - simpl. by rewrite List.app_nil_r.
Qed.

(** [parsePlaceholders] never resets the cursor: whatever state it is
    called in, it returns the first match of every name of the scan that
    starts where the cursor of [PLACEHOLDER_REGEX] stands, and leaves the
    cursor at 0. *)
Lemma parsePlaceholders_from_cursor command σ :
  PLACEHOLDER_lastIndex σ ≤ String.length command →
  parsePlaceholders command σ
  = Some (first_wins []
            (holes (segments PLACEHOLDER_REGEX
                      (prev_at (PLACEHOLDER_lastIndex σ) command)
                      (drop (PLACEHOLDER_lastIndex σ) command) 0)),
          {| PLACEHOLDER_lastIndex := 0;
             ESCAPED_BRACE_lastIndex := ESCAPED_BRACE_lastIndex σ |}).
Proof.
  intros Hle. unfold parsePlaceholders.
  change (∅ : gset string) with (list_to_set [] : gset string).
  rewrite parse_loop_exec_all.
  pose proof (exec_all_spec _ PLACEHOLDER_REGEX_consumes
                (S (String.length command))
                (take (PLACEHOLDER_lastIndex σ) command)
                (drop (PLACEHOLDER_lastIndex σ) command)) as H.
  rewrite take_drop, length_take in H by done.
  rewrite H by (rewrite length_drop; lia). simpl.
  by rewrite groups_results.
Qed.

Lemma parsePlaceholders_past_end command σ :
  String.length command < PLACEHOLDER_lastIndex σ →
  parsePlaceholders command σ
  = Some ([], {| PLACEHOLDER_lastIndex := 0;
                 ESCAPED_BRACE_lastIndex := ESCAPED_BRACE_lastIndex σ |}).
Proof.
  intros Hlt. unfold parsePlaceholders. simpl. unfold exec.
  by rewrite decide_True by done.
Qed.

(** From the state in which the module is loaded, and from any state with
    the cursor at 0, [parsePlaceholders] returns the first match of every
    name of one scan and leaves the state as it was. *)
Lemma parsePlaceholders_spec command σ :
  PLACEHOLDER_lastIndex σ = 0 →
  parsePlaceholders command σ
  = Some (first_wins [] (holes (scan command)), σ).
Proof.
  intros Hσ. unfold parsePlaceholders. rewrite Hσ.
  change (∅ : gset string) with (list_to_set [] : gset string).
  rewrite parse_loop_exec_all.
  pose proof (exec_all_spec _ PLACEHOLDER_REGEX_consumes
                (S (String.length command)) "" command) as H.
  rewrite app_nil_l in H. change (String.length "") with 0 in H.
  change (last None "") with (@None ascii) in H.
  rewrite H by lia. simpl.
  rewrite groups_results. destruct σ as [p e]; simpl in *. by subst p.
Qed.

(** [substitutePlaceholders] renders one scan of the template with its
    callback and unescapes the result, from any state, and leaves both
    cursors at 0. *)
Lemma substitutePlaceholders_replacer member_text command values σ :
  substitutePlaceholders member_text command values σ
  = Some (unescape (rendered (replacer member_text values) (scan command)),
          loaded).
Proof.
  unfold substitutePlaceholders.
  rewrite (replace_spec _ PLACEHOLDER_REGEX_consumes). simpl.
  rewrite (replace_spec _ ESCAPED_BRACE_REGEX_consumes). simpl.
  by rewrite unescape_segments.
Qed.

Lemma rendered_ext_holes f g segs :
  (∀ m, m ∈ holes segs → f m = g m) → rendered f segs = rendered g segs.
Proof.
  intros H. unfold rendered. f_equal. apply list_fmap_ext.
  intros i [c|m] Hi; simpl; [done|]. apply H.
  unfold holes. apply list_elem_of_omap. exists (Hole m).
  split; [by eapply list_elem_of_lookup_2|done].
Qed.

(** Where no name of the template reads a member of [Object.prototype],
    the rendering is the one of the policy. *)
Lemma substitutePlaceholders_spec member_text command values σ :
  (∀ m, m ∈ holes (scan command) →
        reads_member values (default "" (group1 m)) = false) →
  substitutePlaceholders member_text command values σ
  = Some (unescape (rendered (chosen values) (scan command)), loaded).
Proof.
  intros H. rewrite substitutePlaceholders_replacer.
  rewrite (rendered_ext_holes _ (chosen values)); [done|].
  intros m Hm. apply replacer_chosen, H, Hm.
Qed.









(** *** Templates without braces *)

Lemma all_drop p n s : all p s → all p (drop n s).
Proof.
  revert s. induction n as [|n IH]; intros [|c s]; simpl; try done.
  intros [_ H]%andb_prop_elim. by apply IH.
Qed.

Lemma PLACEHOLDER_REGEX_open prev rest m :
  PLACEHOLDER_REGEX prev rest = Some m → ∃ rest', rest = String "{" rest'.
Proof.
  unfold PLACEHOLDER_REGEX. destruct (after_backslash prev); [done|].
  destruct rest as [|open [|c rest1]]; [done..|].
  destruct (Ascii.eqb_spec open "{") as [->|]; [eauto|done].
Qed.

Lemma no_brace_search prev rest pos :
  all no_brace rest → search PLACEHOLDER_REGEX prev rest pos = None.
Proof.
  revert prev pos. induction rest as [|c rest IH]; intros prev pos; simpl.
  - intros _. destruct (PLACEHOLDER_REGEX prev "") as [m|] eqn:Hre; [|done].
    by apply PLACEHOLDER_REGEX_open in Hre as [rest' ?].
  - intros [Hc Hrest]%andb_prop_elim.
    destruct (PLACEHOLDER_REGEX prev (String c rest)) as [m|] eqn:Hre.
    + apply PLACEHOLDER_REGEX_open in Hre as [rest' [= -> _]]. done.
    + by apply IH.
Qed.

Lemma no_brace_scan template : all no_brace template → scan template = lits template.
Proof. intros H. eapply search_None. by apply (no_brace_search _ _ 0). Qed.

Lemma no_brace_unescape s : all no_brace s → unescape s = s.
Proof.
  induction s as [|b s IH]; [done|].
  simpl. intros [Hb Hs]%andb_prop_elim. destruct s as [|c s']; [done|].
  pose proof Hs as Hs0. simpl in Hs. apply andb_prop_elim in Hs as [Hc Hs'].
  unfold no_brace in Hc. destruct (is_brace c); [done|].
  rewrite andb_false_r. f_equal. by apply IH.
Qed.

(** *** Unescaping a concatenation *)

Lemma last_None_weaken d s k :
  last (Some d) s ≠ Some k → last None s ≠ Some k.
Proof. by destruct s. Qed.

Lemma unescape_cons_cons b c s :
  unescape (String b (String c s))
  = if Ascii.eqb b "\" && is_brace c then String c (unescape s)
    else String b (unescape (String c s)).
Proof. reflexivity. Qed.

(** Unescaping works on both parts apart unless a backslash that ends the
    first part meets a brace that starts the second. *)
Lemma unescape_app x y :
  last None x ≠ Some "\"%char ∨ (∀ c y', y = String c y' → is_brace c = false) →
  unescape (x +:+ y) = unescape x +:+ unescape y.
Proof.
  remember (String.length x) as n eqn:Hn.
  revert x Hn. induction (lt_wf n) as [n _ IH]. intros x -> Hxy.
  destruct x as [|b [|c x'']].
  - by rewrite !app_nil_l.
  - rewrite !app_cons, !app_nil_l.
    destruct y as [|d y']; [done|]. rewrite unescape_cons_cons.
    change (unescape (String b "")) with (String b "").
    rewrite app_cons, app_nil_l.
    destruct (Ascii.eqb_spec b "\") as [->|Hb]; simpl andb; [|done].
    destruct Hxy as [Hx|Hy]; [done|]. by rewrite (Hy d y').
  - rewrite !app_cons, !unescape_cons_cons.
    destruct (Ascii.eqb b "\" && is_brace c); rewrite app_cons; f_equal.
    + apply (IH (String.length x'')); [simpl; lia|done|].
      destruct Hxy as [Hx|Hy]; [left|by right].
      by apply (last_None_weaken c).
    + rewrite <- app_cons.
      apply (IH (String.length (String c x''))); [simpl; lia|done|].
      destruct Hxy as [Hx|Hy]; [by left|by right].
Qed.

Lemma unescape_escaped x b y :
  is_brace b →
  unescape (x +:+ String "\" (String b y)) = unescape x +:+ String b (unescape y).
Proof.
  intros Hb. rewrite unescape_app by (right; by intros ? ? [= <- <-]).
  rewrite unescape_cons_cons. simpl. by destruct (is_brace b).
Qed.

Lemma unescape_no_backslash s :
  all (λ c, negb (Ascii.eqb c "\")) s → unescape s = s.
Proof.
  induction s as [|b s IH]; [done|].
  simpl. intros [Hb Hs]%andb_prop_elim. destruct s as [|c s']; [done|].
  destruct (Ascii.eqb b "\"); [done|]. simpl. f_equal. by apply IH.
Qed.

Lemma last_no_backslash d s :
  d ≠ Some "\"%char → all (λ c, negb (Ascii.eqb c "\")) s →
  last d s ≠ Some "\"%char.
Proof.
  revert d. induction s as [|c s IH]; intros d Hd; simpl; [done|].
  intros [Hc Hs]%andb_prop_elim. apply IH; [|done].
  destruct (Ascii.eqb_spec c "\"); [done|congruence].
Qed.

End PlaceholderFacts.

(** ** Assignments to an object in a loop *)

Module ValuesFacts.

Import Placeholders PlaceholderSpec.

Lemma put_lookup_ne k v (values : gmap string string) n :
  n ≠ k → put k v values !! n = values !! n.
Proof.
  intros Hne. unfold put.
  destruct (bool_decide (k = "__proto__") && bool_decide (values !! k = None));
    [done|by rewrite lookup_insert_ne].
Qed.

Lemma put_lookup k v (values : gmap string string) :
  k ≠ "__proto__" → put k v values !! k = Some v.
Proof.
  intros Hne. unfold put. rewrite (bool_decide_eq_false_2 _ Hne). simpl.
  by rewrite lookup_insert_eq.
Qed.

Lemma put_proto v (values : gmap string string) :
  values !! "__proto__" = None → put "__proto__" v values = values.
Proof. intros Hv. unfold put. by rewrite !bool_decide_eq_true_2. Qed.

Section Assignments.

Context {X : Type} (key : X → string) (val : X → string).

Lemma assign_untouched (xs : list X) (values : gmap string string) (n : string) :
  n ∉ key <$> xs → foldl (assign key val) values xs !! n = values !! n.
Proof.
  revert values. induction xs as [|x xs IH]; intros values; [done|].
  rewrite fmap_cons. intros [Hne Hn]%not_elem_of_cons. simpl.
  rewrite IH by done. unfold assign. by rewrite put_lookup_ne.
Qed.

Lemma assign_last (xs1 xs2 : list X) (x : X) (values : gmap string string) :
  key x ≠ "__proto__" →
  key x ∉ key <$> xs2 →
  foldl (assign key val) values (xs1 ++ x :: xs2) !! key x = Some (val x).
Proof.
  intros Hp Hn. rewrite foldl_app. simpl. rewrite assign_untouched by done.
  unfold assign at 1. by rewrite put_lookup.
Qed.

Lemma assign_keys (xs : list X) (values : gmap string string) (n : string) :
  "__proto__" ∉ key <$> xs →
  is_Some (foldl (assign key val) values xs !! n) ↔ n ∈ key <$> xs ∨ is_Some (values !! n).
Proof.
  revert values. induction xs as [|x xs IH]; intros values.
  - intros _. simpl. rewrite elem_of_nil. naive_solver.
  - rewrite fmap_cons. intros [Hx Hxs]%not_elem_of_cons. simpl.
    rewrite IH by done. unfold assign.
    rewrite elem_of_cons. destruct (decide (n = key x)) as [->|Hne].
    + rewrite put_lookup by done. naive_solver.
    + rewrite put_lookup_ne by done. naive_solver.
Qed.

(** Assignments to [__proto__] leave an object without that own property
    as it is. *)
Lemma assign_proto (xs : list X) (values : gmap string string) :
  values !! "__proto__" = None →
  foldl (assign key val) values xs !! "__proto__" = None.
Proof.
  revert values. induction xs as [|x xs IH]; intros values Hv; simpl; [done|].
  apply IH. unfold assign.
  destruct (decide (key x = "__proto__")) as [->|Hne].
  - by rewrite put_proto.
  - by rewrite put_lookup_ne.
Qed.

End Assignments.

Lemma filter_ext_in {A} (P Q : A → Prop) `{!∀ x, Decision (P x)}
    `{!∀ x, Decision (Q x)} (l : list A) :
  (∀ x, x ∈ l → P x ↔ Q x) → filter P l = filter Q l.
Proof.
  induction l as [|x l IH]; intros Hl; [done|].
  rewrite !filter_cons, IH by (intros y Hy; apply Hl; by right).
  destruct (decide (P x)) as [HP|HP], (decide (Q x)) as [HQ|HQ]; try done.
  - exfalso. apply HQ, Hl; [by left|done].
  - exfalso. apply HP, Hl; [by left|done].
Qed.

Lemma zip_fst_take {A B} (l : list A) (k : list B) :
  (zip l k).*1 = take (length k) l.
Proof.
  revert k. induction l as [|a l IH]; intros [|b k]; simpl; try done.
  by rewrite IH.
Qed.

Lemma zip_take_r {A B} (l : list A) (k : list B) :
  zip l k = zip l (take (length l) k).
Proof.
  revert k. induction l as [|a l IH]; intros [|b k]; simpl; try done.
  by rewrite <- IH.
Qed.

Lemma zip_lookup_Some {A B} (l : list A) (k : list B) i a b :
  zip l k !! i = Some (a, b) ↔ l !! i = Some a ∧ k !! i = Some b.
Proof.
  revert k i. induction l as [|a' l IH]; intros [|b' k] [|i]; simpl;
    try naive_solver.
Qed.

(** The [for] loop of [mapArgsToPlaceholders] assigns the pairs of
    [zip placeholders args] in order. *)
Lemma positional_loop (ps0 ps : list Placeholder) (as0 as_ : list string)
    (values : gmap string string) :
  length ps0 = length as0 →
  foldl (λ values i,
           match (ps0 ++ ps) !! i, (as0 ++ as_) !! i with
           | Some placeholder, Some arg => put (name placeholder) arg values
           | _, _ => values
           end)
        values (seq (length ps0) (length as_ `min` length ps))
  = foldl (assign (name ∘ fst) snd) values (zip ps as_).
Proof.
  revert ps0 as0 as_ values.
  induction ps as [|p ps IH]; intros ps0 as0 [|a as_] values Hlen; simpl;
    try done.
  rewrite (list_lookup_middle ps0 ps p) by done.
  rewrite (list_lookup_middle as0 as_ a) by done.
  specialize (IH (ps0 ++ [p]) (as0 ++ [a]) as_ (put (name p) a values)).
  rewrite <- !(List.app_assoc _ [_]) in IH. simpl in IH.
  rewrite !length_app in IH. simpl in IH. rewrite Nat.add_1_r in IH.
  apply IH. lia.
Qed.

Lemma missing_loop (values : gmap string string) (placeholders : list Placeholder)
    (acc : list string) :
  foldl (λ missing ph,
           if required ph then
             let value := get values (name ph) in
             if bool_decide (value = None) || bool_decide (value = Some (Text ""))
             then missing ++ [name ph]
             else missing
           else missing)
        acc placeholders
  = acc ++ (name <$> filter (λ ph, reported values ph) placeholders).
Proof.
  revert acc. induction placeholders as [|ph phs IH]; intros acc; simpl.
  - by rewrite List.app_nil_r.
  - rewrite IH, filter_cons.
    destruct (decide (reported values ph)) as [H|H]; unfold reported in H;
      destruct (required ph); simpl in *; try done.
    + destruct (bool_decide _ || bool_decide _); [|done].
      by rewrite <- List.app_assoc.
    + destruct (bool_decide _ || bool_decide _); [|done].
      exfalso. by apply H.
Qed.

(** What [validatePlaceholderValues] reports, in terms of the own
    properties: a placeholder that counts as missing, unless its name
    reads a member of [Object.prototype]. *)
Lemma reported_is_missing (values : gmap string string) (ph : Placeholder) :
  reported values ph
  = is_missing values ph && negb (reads_member values (name ph)).
Proof.
  unfold reported, is_missing, reads_member, get.
  destruct (required ph); simpl; [|done].
  destruct (values !! name ph) as [v|] eqn:Hv.
  - rewrite (bool_decide_eq_false_2 (Some v = None)) by done.
    rewrite (bool_decide_eq_false_2 (Some (Text v) = None)) by done.
    simpl. rewrite andb_true_r. apply bool_decide_ext.
    split; intros; simplify_eq; done.
  - rewrite (bool_decide_eq_true_2 (None = None)) by done. simpl.
    by destruct (inherited (name ph)).
Qed.

End ValuesFacts.

Module PlaceholderTheorems.

Import Str StrFacts RegExp Scanning ScanningFacts.
Import Placeholders PlaceholderSpec RegexFacts PlaceholderFacts.

(** C1: [substitutePlaceholders("{toString}", {})].  The values object
    provides nothing for the name [toString] and the match has no default,
    so the policy of the specification keeps the text of the match; the
    code finds the name with [in], reads the member that the object
    inherits from [Object.prototype], and returns the text of that
    function, whatever the engine prints for it. *)
Theorem substitute_reads_inherited_member (member_text : string → string)
    (σ : Cursors) :
  scan "{toString}"
  = [Hole {| full := "{toString}"; group1 := Some "toString"; group2 := None |}]
  ∧ chosen ∅ {| full := "{toString}"; group1 := Some "toString"; group2 := None |}
    = "{toString}"
  ∧ substitutePlaceholders member_text "{toString}" ∅ σ
    = Some (unescape (member_text "toString"), loaded)
  ∧ substitutePlaceholders native_text "{toString}" ∅ σ
    = Some ("function toString() { [native code] }", loaded).
Proof.
  assert (H : ∀ f, substitutePlaceholders f "{toString}" ∅ σ
                   = Some (unescape (f "toString"), loaded)).
  { intros f. rewrite substitutePlaceholders_replacer.
    change (scan "{toString}")
      with [Hole {| full := "{toString}"; group1 := Some "toString";
                    group2 := None |}].
    unfold rendered. simpl. rewrite replacer_member by done.
    simpl. by rewrite app_nil_r. }
  split_and!; [done|done|apply H|by rewrite H].
Qed.

(** X10: for every template, values object and state of the cursors,
    [substitutePlaceholders] succeeds; its result is made from one
    left-to-right scan of the original template for matches of the grammar:
    the text between the matches is copied, every match (also one that
    repeats a name) is replaced on its own, and in the string so obtained
    every backslash followed by a brace is replaced by the brace.  A match
    whose name reads a member of [Object.prototype] is replaced by the
    text of that member; every other match by the provided value if that
    is present and not empty, else by its declared default, else by its
    own text. *)
Theorem substitute_scan_callback (member_text : string → string)
    (template : string) (values : gmap string string) (σ : Cursors) :
  let put_in m :=
    if reads_member values (default "" (group1 m))
    then member_text (default "" (group1 m))
    else chosen values m in
  Scan GrammarMatch None template (scan template)
  ∧ substitutePlaceholders member_text template values σ
    = Some (unescape (rendered put_in (scan template)), loaded).
Proof.
  intros put_in. split; [apply scan_Scan|].
  rewrite substitutePlaceholders_replacer. do 3 f_equal.
  apply rendered_ext. intros m. unfold put_in.
  destruct (reads_member values (default "" (group1 m))) eqn:H.
  - by apply replacer_member.
  - by apply replacer_chosen.
Qed.

(** X11: where every name of the template is an own property of the
    values object or no member of [Object.prototype], every match is
    replaced by the provided value if that is present and not empty, else
    by its declared default, else by its own text. *)
Theorem substitute_policy_own_names (member_text : string → string)
    (template : string) (values : gmap string string) (σ : Cursors) :
  (∀ m, m ∈ holes (scan template) →
        is_Some (values !! default "" (group1 m))
        ∨ default "" (group1 m) ∉ Object_prototype) →
  substitutePlaceholders member_text template values σ
  = Some (unescape (rendered (chosen values) (scan template)), loaded).
Proof.
  intros H. apply substitutePlaceholders_spec. intros m Hm.
  unfold reads_member, inherited. apply andb_false_iff.
  destruct (H m Hm) as [[v Hv]|Hn].
  - left. apply bool_decide_eq_false_2. by rewrite Hv.
  - right. by apply bool_decide_eq_false_2.
Qed.

Lemma substitute_policy_own_names_witness :
  substitutePlaceholders native_text "{toString} and {a:b}"
    {[ "toString" := "x" ]} loaded
  = Some ("x and b", loaded).
Proof.
  rewrite (substitute_policy_own_names native_text "{toString} and {a:b}"
             {[ "toString" := "x" ]} loaded).
  - vm_compute. reflexivity.
  - intros m Hm.
    change (holes (scan "{toString} and {a:b}"))
      with [ {| full := "{toString}"; group1 := Some "toString"; group2 := None |};
             {| full := "{a:b}"; group1 := Some "a"; group2 := Some "b" |} ] in Hm.
    apply elem_of_cons in Hm as [->|Hm]; [left; by eexists|].
    apply list_elem_of_singleton in Hm as ->. right.
    intros Hin. apply (bool_decide_eq_true_2 _) in Hin. vm_compute in Hin.
    discriminate.
Defined.

Example substitute_repeated_name :
  substitutePlaceholders native_text "{a} and {a}" {[ "a" := "x" ]} loaded
  = Some ("x and x", loaded).
Proof. vm_compute. reflexivity. Qed.

Example substitute_defaults :
  substitutePlaceholders native_text "git push {remote:origin} {branch:main}"
    ∅ loaded
  = Some ("git push origin main", loaded).
Proof. vm_compute. reflexivity. Qed.

Example substitute_escaped :
  substitutePlaceholders native_text "echo \{not a placeholder\}" ∅ loaded
  = Some ("echo {not a placeholder}", loaded).
Proof. vm_compute. reflexivity. Qed.

Example substitute_inherited_names :
  substitutePlaceholders native_text "{toString} {constructor:dflt} {a}" ∅ loaded
  = Some ("function toString() { [native code] } "
          +:+ "function Object() { [native code] } {a}", loaded).
Proof. vm_compute. reflexivity. Qed.

Example substitute_proto :
  substitutePlaceholders native_text "echo {__proto__}" ∅ loaded
  = Some ("echo [object Object]", loaded).
Proof. vm_compute. reflexivity. Qed.



Example parse_required :
  parsePlaceholders "echo Hello, {name}!" loaded
  = Some ([ {| name := "name"; defaultValue := None; required := true;
               matched := "{name}" |} ], loaded).
Proof. vm_compute. reflexivity. Qed.

Example parse_two_defaults :
  parsePlaceholders "git push {remote:origin} {branch:main}" loaded
  = Some ([ {| name := "remote"; defaultValue := Some "origin";
               required := false; matched := "{remote:origin}" |};
            {| name := "branch"; defaultValue := Some "main";
               required := false; matched := "{branch:main}" |} ], loaded).
Proof. vm_compute. reflexivity. Qed.

(** A brace after a backslash starts no placeholder, also when that
    backslash follows another backslash. *)
Example parse_after_two_backslashes :
  parsePlaceholders "\\{a}" loaded = Some ([], loaded).
Proof. vm_compute. reflexivity. Qed.

(** [hasPlaceholders] sets the cursor to 0 before it tests: from every
    state it answers whether the scan of the template has a match. *)
Lemma hasPlaceholders_answer (template : string) (σ : Cursors) :
  (hasPlaceholders template σ).1 = true ↔ holes (scan template) ≠ [].
Proof.
  unfold hasPlaceholders, test, exec. simpl.
  change (prev_at 0 template) with (@None ascii).
  destruct (search PLACEHOLDER_REGEX None template 0) as [r|] eqn:Hs; simpl.
  - destruct (search_Some _ PLACEHOLDER_REGEX_consumes _ _ _ _ Hs)
      as (gap & post & _ & _ & Hsegs).
    unfold scan. rewrite Hsegs. unfold holes. rewrite omap_app. simpl.
    split; [intros _|done]. by destruct (omap hole (lits gap)).
  - unfold scan. rewrite (search_None _ _ _ _ Hs).
    by rewrite holes_lits.
Qed.

(** C3, at the failing input: [hasPlaceholders "{a}"] answers [true] and
    leaves the cursor of [PLACEHOLDER_REGEX] at 3, the end of the match;
    the call [parsePlaceholders "{a}"] that follows starts its scan there
    and returns no placeholder, where the same call on the module as loaded
    returns the placeholder [a]. *)
Theorem hasPlaceholders_leaves_cursor :
  hasPlaceholders "{a}" loaded
  = (true, {| PLACEHOLDER_lastIndex := 3; ESCAPED_BRACE_lastIndex := 0 |})
  ∧ parsePlaceholders "{a}"
      {| PLACEHOLDER_lastIndex := 3; ESCAPED_BRACE_lastIndex := 0 |}
    = Some ([], loaded)
  ∧ parsePlaceholders "{a}" loaded
    = Some ([ {| name := "a"; defaultValue := None; required := true;
                 matched := "{a}" |} ], loaded).
Proof. vm_compute. done. Qed.

(** C8: for a template without any brace, [parsePlaceholders] returns the
    empty sequence and [substitutePlaceholders] returns the template
    unchanged, for every values object, from every state of the cursors
    and whatever the engine prints for the members of
    [Object.prototype]. *)
Theorem no_brace_template (member_text : string → string) (template : string)
    (values : gmap string string) (σ : Cursors) :
  all no_brace template →
  parsePlaceholders template σ
  = Some ([], {| PLACEHOLDER_lastIndex := 0;
                 ESCAPED_BRACE_lastIndex := ESCAPED_BRACE_lastIndex σ |})
  ∧ substitutePlaceholders member_text template values σ
    = Some (template, loaded).
Proof.
  intros Hno. split.
  - unfold parsePlaceholders. simpl. unfold exec.
    destruct (decide _) as [?|_]; [done|].
    by rewrite no_brace_search by by apply all_drop.
  - rewrite substitutePlaceholders_replacer, no_brace_scan by done.
    by rewrite rendered_lits, no_brace_unescape.
Qed.

Lemma no_brace_template_witness :
  parsePlaceholders "ls -la \ | wc" loaded = Some ([], loaded)
  ∧ substitutePlaceholders native_text "ls -la \ | wc" {[ "a" := "x" ]} loaded
    = Some ("ls -la \ | wc", loaded).
Proof.
  apply (no_brace_template native_text "ls -la \ | wc"). vm_compute. exact I.
Defined.

(** C10: substitution is one pass over the template.  Where the scan of
    the template has a match, the text that the callback returns for it (a
    provided value that is not empty, or the default of the match where
    the name reads as [undefined] or as the empty string) is put between
    the renderings of the segments before and after it and is not scanned
    for placeholders; the result is the unescaping of the whole.  So a
    backslash followed by a brace inside the inserted text is replaced by
    the brace, and an inserted text without backslash, after a rendering
    that does not end in a backslash, appears in the result as it is, also
    where it looks like a placeholder. *)
Theorem substitute_single_pass (member_text : string → string)
    (template : string) (values : gmap string string)
    (σ : Cursors) (segs1 segs2 : list Segment) (m : Match) :
  scan template = segs1 ++ Hole m :: segs2 →
  let name := default "" (group1 m) in
  let inserted := replacer member_text values m in
  let before := rendered (replacer member_text values) segs1 in
  let after := rendered (replacer member_text values) segs2 in
  (∀ v, get values name = Some (Text v) → v ≠ "" → inserted = v)
  ∧ (∀ d, group2 m = Some d →
          get values name = None ∨ get values name = Some (Text "") →
          inserted = d)
  ∧ substitutePlaceholders member_text template values σ
    = Some (unescape (before +:+ inserted +:+ after), loaded)
  ∧ (∀ v1 b v2,
       is_brace b →
       inserted = v1 +:+ String "\" (String b v2) →
       substitutePlaceholders member_text template values σ
       = Some (unescape (before +:+ v1) +:+ String b (unescape (v2 +:+ after)),
               loaded))
  ∧ (all (λ c, negb (Ascii.eqb c "\")) inserted →
     last None before ≠ Some "\"%char →
     substitutePlaceholders member_text template values σ
     = Some (unescape before +:+ inserted +:+ unescape after, loaded)).
Proof.
  intros Hscan name inserted before after.
  assert (Hsub : substitutePlaceholders member_text template values σ
                 = Some (unescape (before +:+ inserted +:+ after), loaded)).
  { rewrite substitutePlaceholders_replacer, Hscan.
    by rewrite rendered_app, rendered_cons. }
  split_and!; [| |done| |].
  - intros v Hv Hne. unfold inserted, replacer. fold name.
    assert (Hk : has_key name values = true).
    { unfold has_key. unfold get in Hv.
      destruct (values !! name); [done|].
      destruct (inherited name); [done|done]. }
    rewrite Hk, Hv. simpl.
    rewrite bool_decide_eq_true_2 by congruence. done.
  - intros d Hd Hv. unfold inserted, replacer. fold name. rewrite Hd.
    destruct Hv as [-> | ->].
    + rewrite bool_decide_eq_false_2 by (intros H; by apply H).
      by rewrite andb_false_r.
    + rewrite (bool_decide_eq_false_2 (Some (Text "") ≠ Some (Text "")))
        by (intros H; by apply H).
      by rewrite andb_false_r.
  - intros v1 b v2 Hb Hv. rewrite Hsub, Hv. do 2 f_equal.
    transitivity
      (unescape ((before +:+ v1) +:+ String "\" (String b (v2 +:+ after))));
      [|by apply unescape_escaped].
    f_equal. by rewrite !app_assoc, !app_cons.
  - intros Hv Hbefore. rewrite Hsub. do 2 f_equal.
    rewrite unescape_app by by left.
    rewrite unescape_app by (left; by apply last_no_backslash).
    by rewrite (unescape_no_backslash _ Hv).
Qed.

Lemma substitute_single_pass_witness :
  substitutePlaceholders native_text "{a} {b}"
    {[ "a" := "\{b\}"; "b" := "{a}" ]} loaded
  = Some ("{b} {a}", loaded).
Proof.
  destruct (substitute_single_pass native_text "{a} {b}"
              {[ "a" := "\{b\}"; "b" := "{a}" ]}
              loaded []
              [Lit " "; Hole {| full := "{b}"; group1 := Some "b"; group2 := None |}]
              {| full := "{a}"; group1 := Some "a"; group2 := None |} eq_refl)
    as (_ & _ & H & _).
  rewrite H. vm_compute. reflexivity.
Defined.

Example substitute_value_not_rescanned :
  substitutePlaceholders native_text "run {a}" {[ "a" := "{b}"; "b" := "z" ]}
    loaded
  = Some ("run {b}", loaded).
Proof. vm_compute. reflexivity. Qed.

Example substitute_default_unescaped :
  substitutePlaceholders native_text "run {a:x\{y}" ∅ loaded
  = Some ("run x{y", loaded).
Proof. vm_compute. reflexivity. Qed.

End PlaceholderTheorems.

Module ValuesTheorems.

Import Placeholders PlaceholderSpec ValuesFacts.

(** C6: [validatePlaceholderValues([{name: "toString", required: true}],
    {})].  The values object holds nothing for the required name
    [toString], which the specification counts as missing; the code reads
    the member that the object inherits from [Object.prototype], which is
    neither [undefined] nor the empty string, and reports nothing. *)
Theorem validate_passes_inherited_member :
  let ph := {| name := "toString"; defaultValue := None; required := true;
               matched := "{toString}" |} in
  (∅ : gmap string string) !! name ph = None
  ∧ is_missing ∅ ph = true
  ∧ get ∅ (name ph) = Some (Inherited "toString")
  ∧ validatePlaceholderValues [ph] ∅ = {| valid := true; missing := [] |}.
Proof. vm_compute. done. Qed.

(** X12: [validatePlaceholderValues] is a total function; [missing] holds,
    in the order of the placeholders, the names of exactly those with
    [required = true] whose name reads as [undefined] or as the empty
    string: the own property is the empty string, or there is no own
    property and [Object.prototype] has no member of that name.  [valid]
    is [true] exactly when [missing] is empty. *)
Theorem validate_missing_exact (placeholders : list Placeholder)
    (values : gmap string string) :
  let result := validatePlaceholderValues placeholders values in
  missing result = name <$> filter (λ ph, reported values ph) placeholders
  ∧ (∀ ph, reported values ph
           ↔ required ph = true
             ∧ (values !! name ph = Some ""
                ∨ (values !! name ph = None ∧ name ph ∉ Object_prototype)))
  ∧ (valid result = true ↔ missing result = []).
Proof.
  simpl. unfold validatePlaceholderValues. simpl. rewrite missing_loop. simpl.
  split_and!; [done| |].
  - intros ph. unfold reported, get.
    destruct (required ph); simpl; [|naive_solver].
    rewrite orb_True, !bool_decide_spec. unfold inherited.
    destruct (values !! name ph) as [v|]; [naive_solver|].
    case_bool_decide; naive_solver.
  - rewrite bool_decide_eq_true. apply length_zero_iff_nil.
Qed.

(** X13: where every placeholder name is an own property of the values
    object or no member of [Object.prototype], [missing] holds, in the
    order of the placeholders, the names of exactly those with
    [required = true] whose value is absent or the empty string. *)
Theorem validate_missing_own_names (placeholders : list Placeholder)
    (values : gmap string string) :
  (∀ ph, ph ∈ placeholders →
         is_Some (values !! name ph) ∨ name ph ∉ Object_prototype) →
  missing (validatePlaceholderValues placeholders values)
  = name <$> filter (λ ph, is_missing values ph) placeholders.
Proof.
  intros H. unfold validatePlaceholderValues. simpl. rewrite missing_loop.
  simpl. f_equal. apply filter_ext_in. intros ph Hph.
  rewrite reported_is_missing.
  assert (reads_member values (name ph) = false) as ->.
  { unfold reads_member, inherited. apply andb_false_iff.
    destruct (H ph Hph) as [[v Hv]|Hn].
    - left. apply bool_decide_eq_false_2. by rewrite Hv.
    - right. by apply bool_decide_eq_false_2. }
  by rewrite andb_true_r.
Qed.

Lemma validate_missing_own_names_witness :
  missing
    (validatePlaceholderValues
       [ {| name := "branch"; defaultValue := None; required := true;
            matched := "{branch}" |};
         {| name := "toString"; defaultValue := None; required := true;
            matched := "{toString}" |} ]
       {[ "toString" := "" ]})
  = ["branch"; "toString"].
Proof.
  rewrite validate_missing_own_names; [vm_compute; reflexivity|].
  intros ph [->|Hph]%elem_of_cons.
  - right. intros Hin. apply (bool_decide_eq_true_2 _) in Hin.
    vm_compute in Hin. discriminate.
  - apply list_elem_of_singleton in Hph as ->. left. by eexists.
Defined.

Example validate_inherited_names :
  validatePlaceholderValues
    [ {| name := "toString"; defaultValue := None; required := true;
         matched := "{toString}" |};
      {| name := "x"; defaultValue := None; required := true;
         matched := "{x}" |};
      {| name := "constructor"; defaultValue := None; required := true;
         matched := "{constructor}" |} ]
    ∅
  = {| valid := false; missing := ["x"] |}.
Proof. vm_compute. reflexivity. Qed.

Example validate_empty_string_is_missing :
  validatePlaceholderValues
    [ {| name := "branch"; defaultValue := None; required := true;
         matched := "{branch}" |} ]
    {[ "branch" := "" ]}
  = {| valid := false; missing := ["branch"] |}.
Proof. vm_compute. reflexivity. Qed.

(** C7: [mapArgsToPlaceholders([{name: "__proto__", required: true}],
    ["x"])].  The specification seeds the name with the empty string and
    then assigns it the argument; both assignments of the code go to the
    setter that the object inherits from [Object.prototype], which ignores
    a string, and the object returned has no own property: a read of the
    name gives [Object.prototype].  No call gives the name [__proto__] a
    value. *)
Theorem mapArgs_drops_proto :
  let ph := {| name := "__proto__"; defaultValue := None; required := true;
               matched := "{__proto__}" |} in
  buildInitialValues [ph] = ∅
  ∧ mapArgsToPlaceholders [ph] ["x"] = ∅
  ∧ get (mapArgsToPlaceholders [ph] ["x"]) "__proto__"
    = Some (Inherited "__proto__")
  ∧ (∀ placeholders args,
       mapArgsToPlaceholders placeholders args !! "__proto__" = None).
Proof.
  split_and!; [by vm_compute|by vm_compute|by vm_compute|].
  intros placeholders args. unfold mapArgsToPlaceholders.
  rewrite (positional_loop [] placeholders [] args) by done.
  apply assign_proto.
  apply (assign_proto name (λ ph, default "" (defaultValue ph))).
  apply lookup_empty.
Qed.

(** X14: where no placeholder is named [__proto__],
    [mapArgsToPlaceholders] seeds every placeholder name with the default
    of its (last) placeholder, or with the empty string when that has
    none, as [buildInitialValues] does; it then assigns [args[i]] to the name of
    [placeholders[i]] for the indices below both lengths, in order and
    whatever the argument is, so that a name holds the argument of the
    last index that assigns it; a name that no such index assigns keeps
    its seed, and the arguments beyond the number of placeholders are
    ignored. *)
Theorem mapArgs_positional_own (placeholders : list Placeholder)
    (args : list string) :
  "__proto__" ∉ name <$> placeholders →
  let seeded := buildInitialValues placeholders in
  let values := mapArgsToPlaceholders placeholders args in
  (∀ n, is_Some (seeded !! n) ↔ n ∈ name <$> placeholders)
  ∧ (∀ i ph,
       placeholders !! i = Some ph →
       (∀ j ph', i < j → placeholders !! j = Some ph' → name ph' ≠ name ph) →
       seeded !! name ph = Some (default "" (defaultValue ph)))
  ∧ values = foldl (assign (name ∘ fst) snd) seeded (zip placeholders args)
  ∧ (∀ i ph arg,
       placeholders !! i = Some ph → args !! i = Some arg →
       (∀ j ph', i < j < length args →
                 placeholders !! j = Some ph' → name ph' ≠ name ph) →
       values !! name ph = Some arg)
  ∧ (∀ n, n ∉ name <$> take (length args) placeholders →
          values !! n = seeded !! n)
  ∧ values = mapArgsToPlaceholders placeholders (take (length placeholders) args).
Proof.
  intros Hproto seeded values.
  assert (Hname : ∀ i ph, placeholders !! i = Some ph → name ph ≠ "__proto__").
  { intros i ph Hi Heq. apply Hproto. rewrite <- Heq.
    apply list_elem_of_fmap. exists ph. split; [done|].
    by eapply list_elem_of_lookup_2. }
  assert (Hseed : seeded
                  = foldl (assign name (λ ph, default "" (defaultValue ph)))
                      ∅ placeholders) by done.
  assert (Hvalues : ∀ args',
            mapArgsToPlaceholders placeholders args'
            = foldl (assign (name ∘ fst) snd) seeded (zip placeholders args')).
  { intros args'. unfold mapArgsToPlaceholders.
    by rewrite <- (positional_loop [] placeholders [] args'). }
  split_and!.
  - intros n. rewrite Hseed, assign_keys, lookup_empty by done.
    split; [intros [?|[? ?]]; done|by left].
  - intros i ph Hi Hlater. rewrite Hseed.
    rewrite <- (take_drop_middle _ _ _ Hi).
    apply (assign_last name (λ ph, default "" (defaultValue ph)));
      [by eapply Hname|].
    intros (ph' & Heq & [j Hj]%list_elem_of_lookup)%list_elem_of_fmap.
    rewrite lookup_drop in Hj.
    apply (Hlater (S i + j) ph'); [lia|done|done].
  - apply Hvalues.
  - intros i ph arg Hi Ha Hlater. unfold values. rewrite Hvalues.
    assert (Hz : zip placeholders args !! i = Some (ph, arg))
      by by apply zip_lookup_Some.
    rewrite <- (take_drop_middle _ _ _ Hz).
    apply (assign_last (name ∘ fst) snd _ _ (ph, arg)); [by eapply Hname|].
    intros ([ph' arg'] & Heq & [j Hj]%list_elem_of_lookup)%list_elem_of_fmap.
    rewrite lookup_drop in Hj. apply zip_lookup_Some in Hj as [Hj1 Hj2].
    apply lookup_lt_Some in Hj2.
    apply (Hlater (S i + j) ph'); [lia|done|done].
  - intros n Hn. unfold values. rewrite Hvalues.
    apply assign_untouched. by rewrite list_fmap_compose, zip_fst_take.
  - unfold values. by rewrite !Hvalues, <- zip_take_r.
Qed.

Lemma mapArgs_positional_own_witness :
  mapArgsToPlaceholders
    [ {| name := "remote"; defaultValue := Some "origin"; required := false;
         matched := "{remote:origin}" |};
      {| name := "branch"; defaultValue := Some "main"; required := false;
         matched := "{branch:main}" |} ]
    [ "" ]
  !! "remote" = Some "".
Proof.
  assert (Hproto : "__proto__" ∉ ["remote"; "branch"]).
  { intros Hin. apply (bool_decide_eq_true_2 _) in Hin. vm_compute in Hin.
    discriminate. }
  destruct (mapArgs_positional_own
    [ {| name := "remote"; defaultValue := Some "origin"; required := false;
         matched := "{remote:origin}" |};
      {| name := "branch"; defaultValue := Some "main"; required := false;
         matched := "{branch:main}" |} ]
    [ "" ] Hproto) as (_ & _ & _ & H & _).
  apply (H 0 _ "" eq_refl eq_refl). simpl. intros j ph' Hj. lia.
Defined.

Example mapArgs_proto_and_other :
  mapArgsToPlaceholders
    [ {| name := "__proto__"; defaultValue := None; required := true;
         matched := "{__proto__}" |};
      {| name := "b"; defaultValue := None; required := true;
         matched := "{b}" |} ]
    [ "x"; "y" ]
  = {[ "b" := "y" ]}.
Proof. vm_compute. reflexivity. Qed.

Example mapArgs_fewer_args :
  mapArgsToPlaceholders
    [ {| name := "remote"; defaultValue := Some "origin"; required := false;
         matched := "{remote:origin}" |};
      {| name := "branch"; defaultValue := Some "main"; required := false;
         matched := "{branch:main}" |} ]
    [ "upstream" ]
  = {[ "remote" := "upstream"; "branch" := "main" ]}.
Proof. vm_compute. reflexivity. Qed.

End ValuesTheorems.

(** ** Sorting and searching *)

Module SortFacts.

Import Fuzzy.

Section Sort.

Context {A : Type} (cmp : A → A → Z).

Local Abbreviation le := (λ a b, (cmp a b ≤ 0)%Z).

Hypothesis cmp_total : ∀ a b, (0 < cmp a b)%Z → (cmp b a ≤ 0)%Z.
Hypothesis cmp_trans :
  ∀ a b c, (cmp a b ≤ 0)%Z → (cmp b c ≤ 0)%Z → (cmp a c ≤ 0)%Z.

Lemma insert_by_Permutation x l : insert_by cmp x l ≡ₚ x :: l.
Proof.
  induction l as [|y l IH]; simpl; [done|].
  destruct (cmp x y <=? 0)%Z; [done|].
  rewrite IH. apply Permutation_swap.
Qed.

Lemma array_sort_Permutation l : array_sort cmp l ≡ₚ l.
Proof.
  induction l as [|x l IH]; simpl; [done|].
  by rewrite insert_by_Permutation, IH.
Qed.

Lemma insert_by_sorted x l :
  StronglySorted le l → StronglySorted le (insert_by cmp x l).
Proof.
  induction 1 as [|y l Hl IH Hy]; simpl.
  - repeat constructor.
  - destruct (Z.leb_spec (cmp x y) 0) as [Hxy|Hxy].
    + constructor; [by constructor|].
      constructor; [done|].
      eapply Forall_impl; [exact Hy|]. intros z Hz. by eapply cmp_trans.
    + constructor; [done|].
      rewrite insert_by_Permutation. constructor; [|done].
      by apply cmp_total.
Qed.

Lemma array_sort_sorted l : StronglySorted le (array_sort cmp l).
Proof.
  induction l as [|x l IH]; simpl; [constructor|by apply insert_by_sorted].
Qed.

(** Sorting a sorted array changes nothing: the sort is stable. *)
Lemma array_sort_sorted_id l : StronglySorted le l → array_sort cmp l = l.
Proof.
  induction 1 as [|x l Hl IH Hx]; simpl; [done|].
  rewrite IH. destruct Hx as [|y l Hxy _]; simpl; [done|].
  by rewrite (proj2 (Z.leb_le _ _) Hxy).
Qed.

Lemma array_sort_idempotent l :
  array_sort cmp (array_sort cmp l) = array_sort cmp l.
Proof. apply array_sort_sorted_id, array_sort_sorted. Qed.

(** Two sorted arrangements of the same elements are equal when no two
    different elements compare equal. *)
Lemma sorted_unique l1 l2 :
  (∀ a b, a ∈ l1 → b ∈ l1 → (cmp a b ≤ 0)%Z → (cmp b a ≤ 0)%Z → a = b) →
  StronglySorted le l1 → StronglySorted le l2 → l1 ≡ₚ l2 → l1 = l2.
Proof.
  intros Hanti H1. revert l2 Hanti.
  induction H1 as [|x l1 Hl1 IH Hx]; intros l2 Hanti H2 Hperm.
  - by apply Permutation_nil_l in Hperm.
  - destruct H2 as [|y l2 Hl2 Hy].
    + by apply Permutation_nil_r in Hperm.
    + assert (x = y) as <-.
      { assert (Hyin : y ∈ x :: l1) by (rewrite Hperm; by left).
        assert (Hxin : x ∈ y :: l2) by (rewrite <- Hperm; by left).
        apply elem_of_cons in Hyin as [->|Hyin]; [done|].
        apply elem_of_cons in Hxin as [->|Hxin]; [done|].
        apply Hanti; [by left|by right| |].
        - by eapply Forall_forall in Hx.
        - by eapply Forall_forall in Hy. }
      f_equal. apply IH; [|done|by apply Permutation_cons_inv in Hperm].
      intros a b Ha Hb. apply Hanti; by right.
Qed.

(** The order of the input does not show in the sorted array when no two
    different elements compare equal. *)
Lemma array_sort_Permutation_eq l1 l2 :
  (∀ a b, a ∈ l1 → b ∈ l1 → (cmp a b ≤ 0)%Z → (cmp b a ≤ 0)%Z → a = b) →
  l1 ≡ₚ l2 → array_sort cmp l1 = array_sort cmp l2.
Proof.
  intros Hanti Hperm. apply sorted_unique; [|apply array_sort_sorted..|].
  - intros a b Ha Hb. rewrite array_sort_Permutation in Ha, Hb. by apply Hanti.
  - by rewrite !array_sort_Permutation.
Qed.

End Sort.

End SortFacts.

Module FuzzyFacts.

Import Fuzzy SortFacts.

Section Host.

Variable localeCompare : string → string → Z.
Variable fuse_search : list Command → string → list FuseResult.

Hypothesis collation : Collation localeCompare.

Local Abbreviation cmp := (compare_commands localeCompare).

Lemma localeCompare_refl a : localeCompare a a = 0%Z.
Proof. by apply (collation_eq _ collation). Qed.

(** The comparator is negative exactly when its first argument precedes
    the second in the chain. *)
Lemma compare_negative a b : (cmp a b < 0)%Z ↔ before localeCompare a b.
Proof.
  unfold compare_commands, before.
  destruct (favorite a), (favorite b); simpl;
    destruct (Z.eqb_spec (usageCount a) (usageCount b)); simpl;
    split; intros H; try lia; try naive_solver lia.
Qed.

(** The comparator is not positive exactly when no link of the chain puts
    its second argument first. *)
Lemma compare_not_positive a b : (cmp a b ≤ 0)%Z ↔ in_order localeCompare a b.
Proof.
  unfold compare_commands, in_order.
  destruct (favorite a), (favorite b); simpl;
    destruct (Z.eqb_spec (usageCount a) (usageCount b)); simpl;
    split; intros H; try lia; try naive_solver lia.
Qed.

(** The comparator is 0 exactly on equal triples. *)
Lemma compare_zero a b : cmp a b = 0%Z ↔ triple a = triple b.
Proof.
  unfold compare_commands, triple.
  destruct (favorite a), (favorite b); simpl;
    destruct (Z.eqb_spec (usageCount a) (usageCount b)); simpl;
    rewrite ?(collation_eq _ collation); split; intros H;
    try lia; try congruence; try (injection H; lia).
Qed.

Lemma compare_total a b : (0 < cmp a b)%Z → (cmp b a ≤ 0)%Z.
Proof.
  unfold compare_commands.
  destruct (favorite a), (favorite b); simpl;
    destruct (Z.eqb_spec (usageCount a) (usageCount b)),
             (Z.eqb_spec (usageCount b) (usageCount a)); simpl;
    try lia; intros H%(collation_total _ collation); lia.
Qed.

Lemma compare_trans a b c : (cmp a b ≤ 0)%Z → (cmp b c ≤ 0)%Z → (cmp a c ≤ 0)%Z.
Proof.
  rewrite !compare_not_positive. unfold in_order.
  intros (Hf1 & Hu1 & Hi1) (Hf2 & Hu2 & Hi2).
  destruct (favorite a), (favorite b), (favorite c); simpl in *;
    try naive_solver; split_and!; try done; try naive_solver lia.
  - intros _ Hac. apply (collation_trans _ collation _ (id b));
      [apply Hi1|apply Hi2]; try done;
      specialize (Hu1 eq_refl); specialize (Hu2 eq_refl); lia.
  - intros _ Hac. apply (collation_trans _ collation _ (id b));
      [apply Hi1|apply Hi2]; try done;
      specialize (Hu1 eq_refl); specialize (Hu2 eq_refl); lia.
Qed.

Lemma compare_antisym a b : (cmp a b ≤ 0)%Z → (cmp b a ≤ 0)%Z → cmp a b = 0%Z.
Proof.
  intros Hab Hba. destruct (Z.eq_dec (cmp a b) 0%Z) as [|Hne]; [done|].
  assert (Hlt : (cmp a b < 0)%Z) by lia.
  apply compare_negative in Hlt. unfold before in Hlt.
  apply compare_not_positive in Hba. unfold in_order in Hba.
  destruct Hba as (Hf & Hu & Hi).
  destruct Hlt as [[Ha Hb]|[[Hfe Hlt]|(Hfe & Hue & Hlt)]].
  - rewrite Hf in Hb; done.
  - specialize (Hu (eq_sym Hfe)). lia.
  - specialize (Hi (eq_sym Hfe) (eq_sym Hue)).
    apply (collation_sym _ collation) in Hlt. lia.
Qed.

(** [before] is a strict order, and it orders every two commands whose
    triples differ. *)
Lemma before_irreflexive a : ¬ before localeCompare a a.
Proof.
  rewrite <- compare_negative.
  assert (cmp a a = 0%Z) by by apply compare_zero. lia.
Qed.

Lemma before_asymmetric a b :
  before localeCompare a b → ¬ before localeCompare b a.
Proof.
  rewrite <- !compare_negative. intros Hab Hba.
  assert (cmp a b = 0%Z) by (apply compare_antisym; lia). lia.
Qed.

Lemma before_transitive a b c :
  before localeCompare a b → before localeCompare b c → before localeCompare a c.
Proof.
  rewrite <- !compare_negative. intros Hab Hbc.
  assert (Hac : (cmp a c ≤ 0)%Z) by (apply (compare_trans a b c); lia).
  destruct (Z.eq_dec (cmp a c) 0%Z) as [H0|]; [|lia].
  assert (Hca : (cmp c a ≤ 0)%Z).
  { apply compare_zero in H0. symmetry in H0. apply compare_zero in H0. lia. }
  assert (Hcb : (cmp c b ≤ 0)%Z) by (apply (compare_trans c a b); lia).
  assert (cmp b c = 0%Z) by (apply compare_antisym; lia). lia.
Qed.

Lemma before_total a b :
  triple a ≠ triple b → before localeCompare a b ∨ before localeCompare b a.
Proof.
  rewrite <- compare_zero, <- !compare_negative. intros Hne.
  destruct (Z.lt_trichotomy (cmp a b) 0%Z) as [?|[?|Hpos]]; [by left|done|right].
  pose proof (compare_total _ _ Hpos) as Hba.
  destruct (Z.eq_dec (cmp b a) 0%Z) as [H0|]; [|lia].
  apply compare_zero in H0. symmetry in H0. apply compare_zero in H0. lia.
Qed.

End Host.

End FuzzyFacts.

(** ** The collation and the search that the model is tried with *)

Module StandIns.

Import Fuzzy.

Lemma nat_of_ascii_inj x y : nat_of_ascii x = nat_of_ascii y → x = y.
Proof.
  intros H. rewrite <- (ascii_nat_embedding x), <- (ascii_nat_embedding y).
  by rewrite H.
Qed.

Lemma compare_code_units_flip a b :
  compare_code_units b a = (- compare_code_units a b)%Z.
Proof.
  revert b. induction a as [|x a IH]; intros [|y b]; simpl; try done.
  destruct (Nat.ltb_spec (nat_of_ascii x) (nat_of_ascii y)),
           (Nat.ltb_spec (nat_of_ascii y) (nat_of_ascii x)); try done; try lia.
Qed.

Lemma compare_code_units_eq a b : compare_code_units a b = 0%Z ↔ a = b.
Proof.
  revert b. induction a as [|x a IH]; intros [|y b]; simpl; try done.
  destruct (Nat.ltb_spec (nat_of_ascii x) (nat_of_ascii y)); [by split; [|intros [= -> _]; lia]|].
  destruct (Nat.ltb_spec (nat_of_ascii y) (nat_of_ascii x)); [by split; [|intros [= -> _]; lia]|].
  assert (x = y) as -> by (apply nat_of_ascii_inj; lia).
  rewrite IH. split; [by intros ->|by intros [= ->]].
Qed.

Lemma compare_code_units_trans a b c :
  (compare_code_units a b ≤ 0)%Z → (compare_code_units b c ≤ 0)%Z →
  (compare_code_units a c ≤ 0)%Z.
Proof.
  revert b c. induction a as [|x a IH]; intros [|y b] [|z c]; simpl; try done.
  destruct (Nat.ltb_spec (nat_of_ascii x) (nat_of_ascii y)),
           (Nat.ltb_spec (nat_of_ascii y) (nat_of_ascii x)),
           (Nat.ltb_spec (nat_of_ascii y) (nat_of_ascii z)),
           (Nat.ltb_spec (nat_of_ascii z) (nat_of_ascii y)),
           (Nat.ltb_spec (nat_of_ascii x) (nat_of_ascii z)),
           (Nat.ltb_spec (nat_of_ascii z) (nat_of_ascii x));
    try done; try lia.
  apply IH.
Qed.

Lemma compare_code_units_Collation : Collation compare_code_units.
Proof.
  split.
  - intros a b. rewrite (compare_code_units_flip a b). lia.
  - intros a b. rewrite (compare_code_units_flip a b). lia.
  - apply compare_code_units_trans.
  - apply compare_code_units_eq.
Qed.

Lemma prefix_matches_item i query contents r :
  r ∈ prefix_matches i query contents →
  ∃ j, refIndex r = i + j ∧ contents !! j = Some (item r).
Proof.
  revert i. induction contents as [|c cs IH]; intros i; simpl.
  - intros H. by apply elem_of_nil in H.
  - intros [Hr|Hr]%elem_of_app.
    + destruct (String.prefix query (id c)); [|by apply elem_of_nil in Hr].
      apply list_elem_of_singleton in Hr as ->. exists 0. simpl. split; [lia|done].
    + destruct (IH _ Hr) as (j & Hj & Hc). exists (S j). split; [lia|done].
Qed.

Lemma prefix_matches_once i query contents :
  NoDup (refIndex <$> prefix_matches i query contents).
Proof.
  revert i. induction contents as [|c cs IH]; intros i; simpl; [constructor|].
  rewrite fmap_app. apply NoDup_app. split_and!.
  - destruct (String.prefix query (id c)); simpl; repeat constructor.
    by intros H%elem_of_nil.
  - intros n Hn (r & -> & Hr)%list_elem_of_fmap.
    destruct (prefix_matches_item _ _ _ _ Hr) as (j & Hj & _).
    destruct (String.prefix query (id c)); simpl in Hn;
      [|by apply elem_of_nil in Hn].
    apply list_elem_of_singleton in Hn. lia.
  - apply IH.
Qed.

Lemma prefix_search_FuseContract : FuseContract prefix_search.
Proof.
  split.
  - intros contents query r Hr. unfold prefix_search in Hr.
    rewrite elem_of_reverse in Hr.
    by destruct (prefix_matches_item _ _ _ _ Hr) as (j & -> & ?).
  - intros contents query. unfold prefix_search.
    rewrite fmap_reverse, reverse_Permutation. apply prefix_matches_once.
Qed.

End StandIns.

Module FuzzyTheorems.

Import Fuzzy SortFacts FuzzyFacts.

Lemma StronglySorted_impl {A} (R S : A → A → Prop) (l : list A) :
  (∀ a b, R a b → S a b) → StronglySorted R l → StronglySorted S l.
Proof.
  intros HRS. induction 1 as [|x l _ IH Hx]; constructor; [done|].
  eapply Forall_impl; [exact Hx|]. intros b. apply HRS.
Qed.

Lemma NoDup_fmap_eq {A B} (f : A → B) (l : list A) (x y : A) :
  NoDup (f <$> l) → x ∈ l → y ∈ l → f x = f y → x = y.
Proof.
  intros Hnd [i Hi]%list_elem_of_lookup [j Hj]%list_elem_of_lookup Hf.
  assert (i = j) as ->; [|congruence].
  apply (NoDup_lookup _ i j (f x) Hnd); rewrite list_lookup_fmap.
  - by rewrite Hi.
  - rewrite Hj. simpl. by rewrite Hf.
Qed.

Section Host.

Variable localeCompare : string → string → Z.
Variable fuse_search : list Command → string → list FuseResult.

Local Abbreviation cmp := (compare_commands localeCompare).
Local Abbreviation sortCommands := (Fuzzy.sortCommands localeCompare).
Local Abbreviation searchCommands :=
  (Fuzzy.searchCommands localeCompare fuse_search).

(** [sortCommands] allocates one array, a sorted copy of its argument. *)
Lemma sortCommands_run (h : Store) (commands : nat) (cs : list Command) :
  h !! commands = Some cs →
  sortCommands commands h
  = Some (fresh (dom h), <[fresh (dom h) := sortDefault localeCompare cs]> h).
Proof.
  intros Hc. unfold Fuzzy.sortCommands, spread, sort_in_place, sortDefault.
  rewrite Hc. simpl. rewrite lookup_insert_eq. simpl.
  by rewrite insert_insert_eq.
Qed.

(** The records that Fuse.js reports are records of the collection, each
    at most as often as it occurs there. *)
Lemma fuse_matched_submseteq (cs : list Command) (query : string) :
  FuseContract fuse_search → item <$> fuse_search cs query ⊆+ cs.
Proof.
  intros [Hitem Honce].
  set (rs := fuse_search cs query).
  assert (Hsub : (λ r, (refIndex r, item r)) <$> rs ⊆+ zip (seq 0 (length cs)) cs).
  { apply NoDup_submseteq.
    - apply (NoDup_fmap_1 fst). rewrite <- list_fmap_compose. apply Honce.
    - intros [i c] (r & [= -> ->] & Hr)%list_elem_of_fmap.
      apply Hitem in Hr. apply list_elem_of_lookup. exists (refIndex r).
      apply ValuesFacts.zip_lookup_Some. split; [|done].
      apply lookup_seq. split; [done|]. by apply lookup_lt_Some in Hr. }
  apply (fmap_submseteq snd) in Hsub.
  rewrite <- list_fmap_compose in Hsub.
  rewrite snd_zip in Hsub by (by rewrite length_seq). exact Hsub.
Qed.

(** C5: the array that [sortCommands] returns holds the records of its
    argument, ordered by the chain: a record stands before another only if
    no link puts the other first, that is, favorites stand before the
    others, among records of equal favorite status the higher usage count
    stands first, and among records equal on both the ids ascend.  The
    comparator is negative exactly where the chain puts its first argument
    first, and this relation is a strict order that orders every two
    records whose (favorite, usageCount, id) triples differ. *)
Theorem sortCommands_chain (h : Store) (commands : nat) (cs : list Command) :
  Collation localeCompare →
  h !! commands = Some cs →
  (∃ out sorted h',
     sortCommands commands h = Some (out, h')
     ∧ h' !! out = Some sorted
     ∧ sorted ≡ₚ cs
     ∧ StronglySorted (in_order localeCompare) sorted)
  ∧ (∀ a b, (cmp a b < 0)%Z ↔ before localeCompare a b)
  ∧ (∀ a, ¬ before localeCompare a a)
  ∧ (∀ a b c, before localeCompare a b → before localeCompare b c →
              before localeCompare a c)
  ∧ (∀ a b, triple a ≠ triple b →
            before localeCompare a b ∨ before localeCompare b a).
Proof.
  intros Hcol Hc. split_and!.
  - eexists _, _, _. split_and!.
    + by apply sortCommands_run.
    + by rewrite lookup_insert_eq.
    + apply array_sort_Permutation.
    + eapply StronglySorted_impl;
        [|apply array_sort_sorted;
          [apply compare_total|apply compare_trans]; done].
      intros a b. by apply compare_not_positive.
  - intros a b. apply compare_negative.
  - by apply before_irreflexive.
  - by apply before_transitive.
  - by apply before_total.
Qed.

(** C4: [searchCommands] returns a new array.  For a query that is empty
    after trimming it holds [sortDefault] of the whole collection; for an
    empty collection it is empty, whatever the query; for any other query
    it holds [sortDefault] of the records that Fuse.js matched, which are
    records of the collection, and, the ids of the collection being
    unique, it is the same for every order in which the matched records
    could have been reported: the order of relevance does not show. *)
Theorem searchCommands_sorted_matches (h : Store) (commands : nat)
    (cs : list Command) (query : string) :
  Collation localeCompare →
  FuseContract fuse_search →
  h !! commands = Some cs →
  ∃ out result h',
    searchCommands commands query h = Some (out, h')
    ∧ h' !! out = Some result
    ∧ (trim query = "" → result = sortDefault localeCompare cs)
    ∧ (cs = [] → result = [])
    ∧ (trim query ≠ "" →
       let matched := item <$> fuse_search cs query in
       matched ⊆+ cs
       ∧ result = sortDefault localeCompare matched
       ∧ (NoDup (id <$> cs) →
          ∀ matched', matched' ≡ₚ matched →
                      sortDefault localeCompare matched' = result)).
Proof.
  intros Hcol Hfuse Hc. unfold Fuzzy.searchCommands.
  pose proof (fuse_matched_submseteq cs query Hfuse) as Hsub.
  destruct (decide (trim query = "")) as [Hq|Hq].
  - rewrite bool_decide_true by done. rewrite (sortCommands_run _ _ _ Hc).
    eexists _, _, _. split_and!; [done|by rewrite lookup_insert_eq|done| |done].
    by intros ->.
  - rewrite bool_decide_false by done. rewrite Hc. simpl.
    rewrite (sortCommands_run _ _ (item <$> fuse_search cs query))
      by by rewrite lookup_insert_eq.
    eexists _, _, _.
    split_and!; [done|by rewrite lookup_insert_eq|done| |].
    + intros ->. apply submseteq_nil_r in Hsub. by rewrite Hsub.
    + intros _. split_and!; [done..|].
      intros Hids matched' Hperm. unfold sortDefault.
      apply array_sort_Permutation_eq;
        [by apply compare_total|by apply compare_trans| |done].
      intros a b Ha Hb Hab Hba.
      rewrite Hperm in Ha, Hb.
      apply (NoDup_fmap_eq id cs);
        [done|by eapply elem_of_submseteq|by eapply elem_of_submseteq|].
      pose proof (compare_antisym _ Hcol _ _ Hab Hba) as H0.
      apply compare_zero in H0; [|done]. by injection H0.
Qed.

(** C9: [sortCommands] and [searchCommands] return an array that did not
    exist before the call and leave every array that did, the one they
    were given among them, with the elements and the order it had. *)
Theorem input_array_unchanged (h : Store) (commands : nat) (cs : list Command)
    (query : string) :
  h !! commands = Some cs →
  (∃ out h',
     sortCommands commands h = Some (out, h')
     ∧ (out ∉ dom h)
     ∧ h' !! commands = Some cs
     ∧ ∀ l, l ∈ dom h → h' !! l = h !! l)
  ∧ (∃ out h',
       searchCommands commands query h = Some (out, h')
       ∧ (out ∉ dom h)
       ∧ h' !! commands = Some cs
       ∧ ∀ l, l ∈ dom h → h' !! l = h !! l).
Proof.
  intros Hc.
  assert (Hin : commands ∈ dom h) by (apply elem_of_dom; eauto).
  assert (Hsort : ∀ (h0 : Store) l cs0,
            h0 !! l = Some cs0 →
            ∃ out h', sortCommands l h0 = Some (out, h')
                      ∧ (out ∉ dom h0)
                      ∧ ∀ l', l' ∈ dom h0 → h' !! l' = h0 !! l').
  { intros h0 l cs0 Hl. eexists _, _.
    split_and!; [by apply sortCommands_run|apply is_fresh|].
    intros l' Hl'. rewrite lookup_insert_ne; [done|].
    intros <-. by apply (is_fresh (dom h0)). }
  split.
  - destruct (Hsort h commands cs Hc) as (out & h' & Hrun & Hout & Hsame).
    exists out, h'. split_and!; [done..| |done].
    by rewrite Hsame.
  - unfold Fuzzy.searchCommands. destruct (bool_decide (trim query = "")).
    + destruct (Hsort h commands cs Hc) as (out & h' & Hrun & Hout & Hsame).
      exists out, h'. split_and!; [done..| |done].
      by rewrite Hsame.
    + rewrite Hc. simpl.
      set (matched := fresh (dom h)).
      set (h1 := <[matched := item <$> fuse_search cs query]> h).
      assert (Hm : h1 !! matched = Some (item <$> fuse_search cs query))
        by apply lookup_insert_eq.
      destruct (Hsort h1 matched _ Hm) as (out & h' & Hrun & Hout & Hsame).
      assert (Hold : ∀ l, l ∈ dom h → h' !! l = h !! l).
      { intros l Hl. rewrite Hsame.
        - unfold h1. rewrite lookup_insert_ne; [done|].
          intros <-. by apply (is_fresh (dom h)).
        - unfold h1. rewrite dom_insert. set_solver. }
      exists out, h'. split_and!; [done| | |done].
      * unfold h1 in Hout. rewrite dom_insert in Hout. set_solver.
      * by rewrite Hold.
Qed.

End Host.

End FuzzyTheorems.

(** The three theorems at a store with one array of three commands, with
    the order of the code units as the collation and the search by
    prefix. *)
Module FuzzyWitnesses.

Import Fuzzy StandIns FuzzyTheorems.

Lemma sortCommands_chain_witness :
  ∃ out sorted h',
    sortCommands compare_code_units 0 store = Some (out, h')
    ∧ h' !! out = Some sorted
    ∧ sorted ≡ₚ three
    ∧ StronglySorted (in_order compare_code_units) sorted.
Proof.
  exact (proj1 (sortCommands_chain compare_code_units store 0 three
                  compare_code_units_Collation eq_refl)).
Defined.

Lemma searchCommands_sorted_matches_witness :
  ∃ out result h',
    searchCommands compare_code_units prefix_search 0 "  " store = Some (out, h')
    ∧ h' !! out = Some result
    ∧ (trim "  " = "" → result = sortDefault compare_code_units three)
    ∧ (three = [] → result = [])
    ∧ (trim "  " ≠ "" →
       let matched := item <$> prefix_search three "  " in
       matched ⊆+ three
       ∧ result = sortDefault compare_code_units matched
       ∧ (NoDup (id <$> three) →
          ∀ matched', matched' ≡ₚ matched →
                      sortDefault compare_code_units matched' = result)).
Proof.
  exact (searchCommands_sorted_matches compare_code_units prefix_search store 0
           three "  " compare_code_units_Collation prefix_search_FuseContract
           eq_refl).
Defined.

Lemma input_array_unchanged_witness :
  ∃ out h',
    searchCommands compare_code_units prefix_search 0 "b" store = Some (out, h')
    ∧ (out ∉ dom store)
    ∧ h' !! 0 = Some three
    ∧ ∀ l, l ∈ dom store → h' !! l = store !! l.
Proof.
  exact (proj2 (input_array_unchanged compare_code_units prefix_search store 0
                  three "b" eq_refl)).
Defined.

Example sortCommands_three :
  sortDefault compare_code_units three
  = [cmd "b" true 1; cmd "c" true 1; cmd "a" false 10].
Proof. vm_compute. reflexivity. Qed.

Example searchCommands_by_prefix :
  (searchCommands compare_code_units prefix_search 0 "c" store
     ≫= λ '(out, h'), h' !! out)
  = Some [cmd "c" true 1].
Proof. vm_compute. reflexivity. Qed.

End FuzzyWitnesses.

(** ** Sorting what is sorted *)

Module SortTheorems.

Import Fuzzy SortFacts FuzzyFacts StandIns FuzzyTheorems.

(** X15: [sortCommands] on the array that [sortCommands] returned gives
    another new array with the same contents in the same order, and
    leaves the first result and the original array as they are. *)
Theorem sortCommands_idempotent (localeCompare : string → string → Z)
    (h : Store) (commands : nat) (cs : list Command) :
  Collation localeCompare →
  h !! commands = Some cs →
  ∃ out sorted h1 out' h2,
    sortCommands localeCompare commands h = Some (out, h1)
    ∧ h1 !! out = Some sorted
    ∧ sortCommands localeCompare out h1 = Some (out', h2)
    ∧ out' ≠ out
    ∧ h2 !! out' = Some sorted
    ∧ h2 !! out = Some sorted
    ∧ h2 !! commands = Some cs.
Proof.
  intros Hcol Hc.
  set (out := fresh (dom h)).
  set (h1 := <[out := sortDefault localeCompare cs]> h).
  assert (Hout : h1 !! out = Some (sortDefault localeCompare cs))
    by apply lookup_insert_eq.
  assert (Hne : fresh (dom h1) ≠ out).
  { intros Heq. apply (is_fresh (dom h1)). rewrite Heq.
    apply elem_of_dom. by eexists. }
  assert (Hcmd : commands ≠ out).
  { intros Heq. apply (is_fresh (dom h)). fold out. rewrite <- Heq.
    apply elem_of_dom. by eexists. }
  exists out, (sortDefault localeCompare cs), h1, (fresh (dom h1)),
    (<[fresh (dom h1) := sortDefault localeCompare cs]> h1).
  split_and!.
  - by apply sortCommands_run.
  - done.
  - rewrite (sortCommands_run _ _ _ _ Hout). do 3 f_equal.
    unfold sortDefault. apply array_sort_idempotent.
    + by apply compare_total.
    + by apply compare_trans.
  - done.
  - apply lookup_insert_eq.
  - by rewrite lookup_insert_ne.
  - rewrite lookup_insert_ne.
    + unfold h1. by rewrite lookup_insert_ne.
    + intros Heq. apply (is_fresh (dom h1)). rewrite Heq.
      apply elem_of_dom. unfold h1. rewrite lookup_insert_ne by done.
      by eexists.
Qed.

Lemma sortCommands_idempotent_witness :
  ∃ out sorted h1 out' h2,
    sortCommands compare_code_units 0 store = Some (out, h1)
    ∧ h1 !! out = Some sorted
    ∧ sortCommands compare_code_units out h1 = Some (out', h2)
    ∧ out' ≠ out
    ∧ h2 !! out' = Some sorted
    ∧ h2 !! out = Some sorted
    ∧ h2 !! 0 = Some three.
Proof.
  exact (sortCommands_idempotent compare_code_units store 0 three
           compare_code_units_Collation eq_refl).
Defined.

End SortTheorems.

(** ** The engine across calls, and its callers *)

Module PipelineFacts.

Import Str StrFacts RegExp Scanning ScanningFacts.
Import Placeholders PlaceholderSpec RegexFacts PlaceholderFacts Callers.

(** A scan without a match copies every code unit, and so does the scan of
    every suffix. *)
Lemma holes_nil_lits (re : Matcher) prev s :
  holes (segments re prev s 0) = [] → segments re prev s 0 = lits s.
Proof.
  revert prev. induction s as [|c s IH]; intros prev; simpl.
  - by destruct (re prev "").
  - destruct (re prev (String c s)); [done|].
    intros H. f_equal. by apply IH.
Qed.

Lemma lits_suffix (re : Matcher) prev s n :
  segments re prev s 0 = lits s →
  segments re (last prev (take n s)) (drop n s) 0 = lits (drop n s).
Proof.
  revert prev s. induction n as [|n IH]; intros prev [|c s]; try done.
  simpl. destruct (re prev (String c s)); [done|].
  intros [= H]. by apply IH.
Qed.

Lemma parse_no_holes template σ :
  holes (scan template) = [] →
  parsePlaceholders template σ
  = Some ([], {| PLACEHOLDER_lastIndex := 0;
                 ESCAPED_BRACE_lastIndex := ESCAPED_BRACE_lastIndex σ |}).
Proof.
  intros Hnone%holes_nil_lits.
  destruct (decide (PLACEHOLDER_lastIndex σ ≤ String.length template)) as [Hle|Hgt].
  - rewrite parsePlaceholders_from_cursor by done.
    unfold prev_at. rewrite (lits_suffix _ None) by done.
    by rewrite holes_lits.
  - apply parsePlaceholders_past_end. lia.
Qed.



End PipelineFacts.

Module PipelineValues.

Import Placeholders PlaceholderSpec ValuesFacts Callers.








End PipelineValues.

Module PipelineTheorems.

Import Str StrFacts RegExp Scanning ScanningFacts.
Import Placeholders PlaceholderSpec RegexFacts PlaceholderFacts Callers.
Import PipelineFacts.



(** X1: from every state of the cursor [parsePlaceholders] returns, and it
    leaves the cursor of [PLACEHOLDER_REGEX] at 0: the call to
    [parsePlaceholders] that follows it, for any template, returns the
    placeholders of a scan from the start. *)
Theorem parse_resets_cursor (template : string) (σ : Cursors) :
  ∃ phs σ',
    parsePlaceholders template σ = Some (phs, σ')
    ∧ PLACEHOLDER_lastIndex σ' = 0
    ∧ ∀ template',
        parsePlaceholders template' σ'
        = Some (first_wins [] (holes (scan template')), σ').
Proof.
  destruct (decide (PLACEHOLDER_lastIndex σ ≤ String.length template)) as [Hle|Hgt].
  - eexists _, _. split_and!; [by apply parsePlaceholders_from_cursor|done|].
    intros template'. by apply parsePlaceholders_spec.
  - eexists _, _. split_and!; [apply parsePlaceholders_past_end; lia|done|].
    intros template'. by apply parsePlaceholders_spec.
Qed.

(** X2: after [hasPlaceholders] on a template, [parsePlaceholders] on the
    same template leaves out the first match: it returns the placeholders
    of the matches after the first one (all of them when there is no
    match), and leaves the cursor at 0. *)
Theorem parse_after_hasPlaceholders (template : string) (σ : Cursors) :
  parsePlaceholders template (hasPlaceholders template σ).2
  = Some (first_wins [] (tail (holes (scan template))),
          {| PLACEHOLDER_lastIndex := 0;
             ESCAPED_BRACE_lastIndex := ESCAPED_BRACE_lastIndex σ |}).
Proof.
  unfold hasPlaceholders, test, exec. simpl.
  change (prev_at 0 template) with (@None ascii).
  destruct (search PLACEHOLDER_REGEX None template 0) as [r|] eqn:Hs; simpl.
  - destruct (search_Some _ PLACEHOLDER_REGEX_consumes _ _ _ _ Hs)
      as (gap & post & Ht & Hidx & Hsegs).
    unfold scan. rewrite Hsegs. unfold holes. rewrite omap_app. simpl.
    fold (holes (lits gap)). rewrite holes_lits. simpl.
    assert (Hend : end_index r = String.length (gap +:+ full (groups r))).
    { unfold end_index. rewrite Hidx, length_app. lia. }
    rewrite parsePlaceholders_from_cursor; simpl.
    + rewrite Hend. rewrite Ht at 1 2. rewrite <- app_assoc.
      by rewrite prev_at_app, drop_app_length.
    + rewrite Hend, Ht at 1. rewrite <- app_assoc, (length_app (_ +:+ _)). lia.
  - rewrite parsePlaceholders_spec by done.
    unfold scan. rewrite (search_None _ _ _ _ Hs), holes_lits. by destruct σ.
Qed.

(** X3: for a saved command without placeholder, the command line returns
    the command as it is, escaped braces included, while the TUI returns
    it unescaped. *)
Theorem resolve_without_placeholders (member_text : string → string)
    (command : string) (args : list string)
    (values : option (gmap string string)) (σ : Cursors) :
  holes (scan command) = [] →
  resolve member_text command args σ
  = Some (Resolved command,
          {| PLACEHOLDER_lastIndex := 0;
             ESCAPED_BRACE_lastIndex := ESCAPED_BRACE_lastIndex σ |})
  ∧ handleExecute member_text command values σ
    = Some (Run (unescape command), loaded).
Proof.
  intros Hnone. unfold resolve, handleExecute.
  rewrite (parse_no_holes _ _ Hnone). simpl. split; [done|].
  rewrite substitutePlaceholders_replacer. simpl.
  unfold scan in *. rewrite (holes_nil_lits _ _ _ Hnone).
  by rewrite rendered_lits.
Qed.

Lemma resolve_without_placeholders_witness :
  resolve native_text "echo \{x\}" ["a"] loaded
  = Some (Resolved "echo \{x\}", loaded)
  ∧ handleExecute native_text "echo \{x\}" None loaded
    = Some (Run "echo {x}", loaded).
Proof.
  exact (resolve_without_placeholders native_text "echo \{x\}" ["a"] None
           loaded eq_refl).
Defined.








(** A later occurrence of a name can be left as it is although the
    validation passed: here the first occurrence declares the empty
    default. *)
Example resolve_leaves_later_occurrence :
  resolve native_text "echo {a:} {a}" [] loaded
  = Some (Resolved "echo  {a}", loaded).
Proof. vm_compute. reflexivity. Qed.

(** A required placeholder named [__proto__] passes the validation
    without an argument, and the command is resolved with the text of
    [Object.prototype]; with an argument, the argument is dropped. *)
Example resolve_proto :
  resolve native_text "echo {__proto__}" [] loaded
  = Some (Resolved "echo [object Object]", loaded)
  ∧ resolve native_text "echo {__proto__}" ["x"] loaded
    = Some (Resolved "echo [object Object]", loaded).
Proof. vm_compute. done. Qed.

End PipelineTheorems.

(** ** Ids and the command line *)

Module CliFacts.

Import Placeholders Validation Parser.

Lemma hyphen_no_id_char : is_id_char "-" = false.
Proof. reflexivity. Qed.

Lemma last_id_char (c d : ascii) (s : string) :
  is_id_char c = is_id_char d →
  from_option is_id_char false (Str.last (Some c) s)
  = from_option is_id_char false (Str.last (Some d) s).
Proof. by destruct s. Qed.

Lemma ID_REGEX_from_shape (in_segment : bool) (s : string) :
  ID_REGEX_from in_segment s = shape in_segment s.
Proof.
  revert in_segment. induction s as [|c s IH]; intros b.
  - by destruct b.
  - simpl ID_REGEX_from. rewrite !IH. unfold shape. simpl.
    destruct (is_id_char c) eqn:Hc; simpl.
    + assert (Ascii.eqb c "-" = false) as ->.
      { destruct (Ascii.eqb_spec c "-") as [->|]; [done|done]. }
      rewrite orb_true_r. simpl.
      rewrite (last_id_char c "a") by done.
      destruct s as [|d s']; simpl; [done|].
      by destruct (Str.all _ s'), (no_consecutive_hyphens (String d s')).
    + destruct (Ascii.eqb_spec c "-") as [->|Hne]; simpl; [|done].
      destruct b; simpl; [|by rewrite !andb_false_r].
      destruct s as [|d s']; simpl; [done|].
      destruct (is_id_char d) eqn:Hd; simpl.
      * assert (Ascii.eqb d "-" = false) as ->.
        { destruct (Ascii.eqb_spec d "-") as [->|]; [done|done]. }
        by rewrite !andb_true_r.
      * destruct (Ascii.eqb d "-"); simpl; [|done].
        by rewrite !andb_false_r.
Qed.

Lemma validateId_accepts (id : string) :
  valid (validateId id) = true
  ↔ id ≠ "" ∧ String.length id ≤ 50 ∧ (id ∉ RESERVED_KEYWORDS)
    ∧ ID_REGEX_test id = true.
Proof.
  unfold validateId.
  destruct (decide (id = "")) as [H1|H1];
    [rewrite bool_decide_true by done; simpl; naive_solver|].
  rewrite bool_decide_false by done.
  destruct (decide (50 < String.length id)) as [H2|H2];
    [rewrite bool_decide_true by done; simpl; split; [done|]; lia|].
  rewrite bool_decide_false by done.
  destruct (decide (id ∈ RESERVED_KEYWORDS)) as [H3|H3];
    [rewrite bool_decide_true by done; simpl; naive_solver|].
  rewrite bool_decide_false by done.
  destruct (ID_REGEX_test id); simpl; [|naive_solver].
  split; [|done]. intros _. split_and!; (done || lia).
Qed.

Lemma ID_REGEX_first (s : string) :
  ID_REGEX_test s = true → ∃ c s', s = String c s' ∧ is_id_char c = true.
Proof.
  destruct s as [|c s']; [done|]. unfold ID_REGEX_test. simpl.
  destruct (is_id_char c) eqn:Hc; [eauto|].
  by destruct (Ascii.eqb c "-").
Qed.

Lemma prefix_head (a c : ascii) (p s : string) :
  a ≠ c → String.prefix (String a p) (String c s) = false.
Proof. intros Hne. simpl. by destruct (ascii_dec a c). Qed.

Lemma id_char_no_flag (c : ascii) (s : string) :
  is_id_char c = true → is_flag (String c s) = false.
Proof.
  intros Hc. assert (Hne : "-"%char ≠ c) by (intros <-; done).
  unfold is_flag.
  change "--output=" with (String "-" "-output=").
  change "-o=" with (String "-" "o=").
  rewrite !prefix_head by done.
  rewrite bool_decide_false; [done|].
  rewrite !elem_of_cons, elem_of_nil.
  intros H; repeat destruct H as [H|H]; try done; by injection H as H' _.
Qed.

(** The loop hands what it has collected on, and the flags do not depend
    on it. *)
Lemma scan_args_acc (args : list string) (flags : Flags) (acc : list string) :
  scan_args args flags acc
  = ((scan_args args flags []).1, acc ++ (scan_args args flags []).2).
Proof.
  remember (length args) as n eqn:Hn.
  revert args flags acc Hn.
  induction (lt_wf n) as [n _ IH]. intros args flags acc ->.
  destruct args as [|arg rest]; [by rewrite List.app_nil_r|].
  assert (Hrest : ∀ f a, scan_args rest f a
                         = ((scan_args rest f []).1, a ++ (scan_args rest f []).2)).
  { intros f a. eapply IH; [|done]. simpl. lia. }
  simpl.
  destruct (bool_decide (arg = "--help") || bool_decide (arg = "-h"));
    [by rewrite (Hrest _ acc)|].
  destruct (bool_decide (arg = "--version") || bool_decide (arg = "-v"));
    [by rewrite (Hrest _ acc)|].
  destruct (bool_decide (arg = "--exec")); [by rewrite (Hrest _ acc)|].
  destruct (bool_decide (arg = "--raw") || bool_decide (arg = "-r"));
    [by rewrite (Hrest _ acc)|].
  destruct (bool_decide (arg = "--no-tui")); [by rewrite (Hrest _ acc)|].
  destruct (bool_decide (arg = "--output") || bool_decide (arg = "-o")).
  { destruct rest as [|nextArg rest']; [done|].
    destruct (is_format nextArg); [|by rewrite (Hrest _ acc)].
    eapply IH; [|done]. simpl. lia. }
  destruct (String.prefix "--output=" arg); [by rewrite (Hrest _ acc)|].
  destruct (String.prefix "-o=" arg); [by rewrite (Hrest _ acc)|].
  rewrite (Hrest _ (if bool_decide (arg ≠ "") then acc ++ [arg] else acc)).
  rewrite (Hrest _ (if bool_decide (arg ≠ "") then [arg] else [])).
  simpl. f_equal. case_bool_decide; simpl; [by rewrite <- List.app_assoc|done].
Qed.

Lemma scan_args_plain_head (arg : string) (rest : list string) (flags : Flags)
    (acc : list string) :
  is_flag arg = false → arg ≠ "" →
  scan_args (arg :: rest) flags acc = scan_args rest flags (acc ++ [arg]).
Proof.
  intros Hflag Hne. unfold is_flag in Hflag.
  apply orb_false_elim in Hflag as [Hflag Ho].
  apply orb_false_elim in Hflag as [Hlit Hout].
  apply bool_decide_eq_false in Hlit.
  rewrite !elem_of_cons, elem_of_nil in Hlit.
  simpl. rewrite !bool_decide_false by (intros ->; apply Hlit; tauto).
  simpl. rewrite Hout, Ho. by rewrite bool_decide_true.
Qed.

(** Arguments that are no flags pass through the loop. *)
Lemma scan_args_plain (args : list string) (flags : Flags) (acc : list string) :
  Forall (λ a, is_flag a = false ∧ a ≠ "") args →
  scan_args args flags acc = (flags, acc ++ args).
Proof.
  intros Hall. revert acc.
  induction Hall as [|arg rest [Hflag Hne] _ IH]; intros acc.
  - by rewrite List.app_nil_r.
  - rewrite scan_args_plain_head by done. rewrite IH.
    by rewrite <- List.app_assoc.
Qed.

(** What the loop collects stands in the arguments, in their order, and
    none of it is a flag or empty. *)
Lemma scan_args_positional (args : list string) (flags : Flags) :
  (scan_args args flags []).2 `sublist_of` args
  ∧ Forall (λ a, is_flag a = false ∧ a ≠ "") (scan_args args flags []).2.
Proof.
  remember (length args) as n eqn:Hn.
  revert args flags Hn.
  induction (lt_wf n) as [n _ IH]. intros args flags ->.
  destruct args as [|arg rest]; [by split; constructor|].
  assert (Hrest : ∀ f, (scan_args rest f []).2 `sublist_of` arg :: rest
                       ∧ Forall (λ a, is_flag a = false ∧ a ≠ "")
                           (scan_args rest f []).2).
  { intros f. destruct (IH (length rest)) with (args := rest) (flags := f)
      as [Hs Hf]; [simpl; lia|done|]. split; [by apply sublist_cons|done]. }
  simpl.
  destruct (bool_decide (arg = "--help") || bool_decide (arg = "-h")) eqn:H1;
    [apply Hrest|].
  destruct (bool_decide (arg = "--version") || bool_decide (arg = "-v")) eqn:H2;
    [apply Hrest|].
  destruct (bool_decide (arg = "--exec")) eqn:H3; [apply Hrest|].
  destruct (bool_decide (arg = "--raw") || bool_decide (arg = "-r")) eqn:H4;
    [apply Hrest|].
  destruct (bool_decide (arg = "--no-tui")) eqn:H5; [apply Hrest|].
  destruct (bool_decide (arg = "--output") || bool_decide (arg = "-o")) eqn:H6.
  { destruct rest as [|nextArg rest']; [apply Hrest|].
    destruct (is_format nextArg); [|apply Hrest].
    destruct (IH (length rest')) with (args := rest') (flags := set_output nextArg flags)
      as [Hs Hf]; [simpl; lia|done|].
    split; [by do 2 apply sublist_cons|done]. }
  destruct (String.prefix "--output=" arg) eqn:H7; [apply Hrest|].
  destruct (String.prefix "-o=" arg) eqn:H8; [apply Hrest|].
  rewrite scan_args_acc. simpl.
  destruct (IH (length rest)) with (args := rest) (flags := flags)
    as [Hs Hf]; [simpl; lia|done|].
  destruct (decide (arg = "")) as [Hne|Hne];
    [rewrite bool_decide_false by (by intros ?)
    |rewrite bool_decide_true by done]; simpl; last first.
  - split; [by apply sublist_skip|]. constructor; [|done].
    split; [|done]. unfold is_flag. rewrite H7, H8, !orb_false_r.
    apply bool_decide_eq_false. rewrite !elem_of_cons, elem_of_nil.
    apply orb_false_elim in H1 as [?%bool_decide_eq_false ?%bool_decide_eq_false].
    apply orb_false_elim in H2 as [?%bool_decide_eq_false ?%bool_decide_eq_false].
    apply bool_decide_eq_false in H3.
    apply orb_false_elim in H4 as [?%bool_decide_eq_false ?%bool_decide_eq_false].
    apply bool_decide_eq_false in H5.
    apply orb_false_elim in H6 as [?%bool_decide_eq_false ?%bool_decide_eq_false].
    tauto.
  - split; [by apply sublist_cons|done].
Qed.

End CliFacts.

Module CliTheorems.

Import Placeholders Validation Parser CliFacts.

Lemma last_some_id (s : string) :
  from_option is_id_char false (Str.last (Some "-"%char) s) = true
  ↔ ∃ c, Str.last None s = Some c ∧ is_id_char c = true.
Proof.
  destruct s as [|c s]; simpl.
  - split; [done|]. by intros (c & ? & _).
  - destruct (Str.last (Some c) s) as [d|]; simpl; [|split; [done|naive_solver]].
    split; [eauto|]. by intros (d' & [= <-] & ?).
Qed.

Lemma consecutive_hyphens (s : string) :
  no_consecutive_hyphens s = false ↔ ∃ a b, s = a +:+ "--" +:+ b.
Proof.
  induction s as [|c s IH].
  - split; [done|]. intros ([|? ?] & b & H); discriminate.
  - simpl. destruct s as [|d s'].
    + split; [done|]. intros ([|? [|? ?]] & b & H); discriminate.
    + rewrite andb_false_iff, negb_false_iff, andb_true_iff, IH.
      split.
      * intros [[->%Ascii.eqb_eq ->%Ascii.eqb_eq]|(a & b & ->)].
        -- by exists "", s'.
        -- by exists (String c a), b.
      * intros ([|c' a] & b & H).
        -- injection H as -> -> _. left. by rewrite !Ascii.eqb_refl.
        -- injection H as -> H. right. by exists a, b.
Qed.

(** X6: [ID_REGEX] accepts exactly the strings that the comment on it
    describes: they start and end with an id character, hold nothing but
    id characters and hyphens, and no hyphen follows a hyphen. *)
Theorem ID_REGEX_shape (s : string) :
  ID_REGEX_test s = true
  ↔ (∃ c, first_unit s = Some c ∧ is_id_char c = true)
    ∧ (∃ c, Str.last None s = Some c ∧ is_id_char c = true)
    ∧ Str.all (λ c, is_id_char c || Ascii.eqb c "-") s = true
    ∧ ¬ ∃ a b, s = a +:+ "--" +:+ b.
Proof.
  unfold ID_REGEX_test. rewrite ID_REGEX_from_shape. unfold shape.
  rewrite !andb_true_iff, last_some_id, <- consecutive_hyphens.
  rewrite not_false_iff_true. simpl.
  destruct (first_unit s) as [c|]; simpl; [|naive_solver].
  split.
  - intros [[[? ?] ?] ?]. split_and!; eauto.
  - intros ((c' & [= <-] & ?) & ? & ? & ?). done.
Qed.

Lemma SUBCOMMANDS_reserved (x : string) :
  x ∈ SUBCOMMANDS → x ∈ RESERVED_KEYWORDS.
Proof.
  unfold SUBCOMMANDS, RESERVED_KEYWORDS.
  rewrite !elem_of_cons, !elem_of_nil. tauto.
Qed.

(** X7: an id that [validateId] accepts is never taken for a subcommand
    or a flag: at the first place of the command line it becomes the
    command id, and when the arguments after it are no flags they are
    passed on unchanged. *)
Theorem accepted_id_is_command_id (id a0 a1 : string) (rest : list string) :
  valid (validateId id) = true →
  let r := parseArgs (a0 :: a1 :: id :: rest) in
  subcommand r = None
  ∧ commandId r = Some id
  ∧ (Forall (λ a, is_flag a = false ∧ a ≠ "") rest →
     args r = rest ∧ flags r = no_flags).
Proof.
  intros (Hne & _ & Hres & Hre)%validateId_accepts.
  destruct (ID_REGEX_first _ Hre) as (c & s' & -> & Hc).
  assert (Hsub : String c s' ∉ SUBCOMMANDS)
    by (intros H%SUBCOMMANDS_reserved; done).
  unfold parseArgs. simpl drop.
  rewrite scan_args_plain_head by (by apply id_char_no_flag || done).
  rewrite scan_args_acc. simpl.
  rewrite (bool_decide_false (String c s' ∈ SUBCOMMANDS)) by done.
  rewrite ?andb_false_r. simpl. split_and!; [done..|].
  intros Hplain. by rewrite (scan_args_plain _ _ [] Hplain).
Qed.

Lemma accepted_id_is_command_id_witness :
  let r := parseArgs ["bun"; "comma"; "deploy-2"; "prod"; "eu-west"] in
  subcommand r = None
  ∧ commandId r = Some "deploy-2"
  ∧ (Forall (λ a, is_flag a = false ∧ a ≠ "") ["prod"; "eu-west"] →
     args r = ["prod"; "eu-west"] ∧ flags r = no_flags).
Proof.
  exact (accepted_id_is_command_id "deploy-2" "bun" "comma"
           ["prod"; "eu-west"] eq_refl).
Defined.

(** X8: what [parseArgs] returns as subcommand, command id and arguments
    stands in the command line after its first two entries, in the same
    order, and none of it is a flag or empty; the subcommand, if any, is
    one of [SUBCOMMANDS]; a command line without flags and empty entries
    is passed on whole, with no flag set. *)
Theorem parseArgs_positionals (argv : list string) :
  let r := parseArgs argv in
  let positionals :=
    option_list (subcommand r) ++ option_list (commandId r) ++ args r in
  positionals `sublist_of` drop 2 argv
  ∧ Forall (λ a, is_flag a = false ∧ a ≠ "") positionals
  ∧ (∀ sub, subcommand r = Some sub → sub ∈ SUBCOMMANDS)
  ∧ (Forall (λ a, is_flag a = false ∧ a ≠ "") (drop 2 argv) →
     positionals = drop 2 argv ∧ flags r = no_flags).
Proof.
  intros r positionals.
  pose proof (scan_args_positional (drop 2 argv) no_flags) as [Hsub Hplain].
  assert (Hpos : positionals = (scan_args (drop 2 argv) no_flags []).2
                 ∧ flags r = (scan_args (drop 2 argv) no_flags []).1
                 ∧ ∀ sub, subcommand r = Some sub → sub ∈ SUBCOMMANDS).
  { unfold positionals, r, parseArgs.
    destruct (scan_args (drop 2 argv) no_flags []) as [f [|firstArg tl]];
      simpl; [done|].
    destruct (decide (firstArg ∈ SUBCOMMANDS)) as [Hin|Hin].
    - rewrite (bool_decide_true (firstArg ∈ SUBCOMMANDS)) by done.
      case_bool_decide; simpl.
      + split_and!; [by destruct tl|done|by intros ? [= <-]].
      + done.
    - rewrite (bool_decide_false (firstArg ∈ SUBCOMMANDS)) by done.
      by rewrite andb_false_r. }
  destruct Hpos as (-> & Hflags & Hsubcommand).
  split_and!; [done..|].
  intros Hall. rewrite Hflags. by rewrite (scan_args_plain _ _ [] Hall).
Qed.

Example parseArgs_mixed :
  parseArgs ["bun"; "comma"; "-o"; "json"; "search"; "--raw"; "git"; ""; "push"]
  = {| subcommand := Some "search"; commandId := Some "git"; args := ["push"];
       flags := set_raw (set_output "json" no_flags) |}.
Proof. vm_compute. reflexivity. Qed.

End CliTheorems.

Module NormalizeTheorems.

Import Placeholders Validation CliFacts.
Import Fuzzy.

Lemma lower_unit_idempotent (c : ascii) : lower_unit (lower_unit c) = lower_unit c.
Proof. by destruct c as [[] [] [] [] [] [] [] []]. Qed.

Lemma lower_unit_whitespace (c : ascii) :
  is_whitespace (lower_unit c) = is_whitespace c.
Proof. by destruct c as [[] [] [] [] [] [] [] []]. Qed.

Lemma lower_unit_id (c : ascii) :
  is_id_char c || Ascii.eqb c "-" = true → lower_unit c = c.
Proof. by destruct c as [[] [] [] [] [] [] [] []]. Qed.

Lemma id_unit_no_whitespace (c : ascii) :
  is_id_char c || Ascii.eqb c "-" = true → is_whitespace c = false.
Proof. by destruct c as [[] [] [] [] [] [] [] []]. Qed.

Lemma toLowerCase_idempotent (s : string) :
  toLowerCase (toLowerCase s) = toLowerCase s.
Proof.
  induction s as [|c s IH]; [done|].
  simpl. by rewrite lower_unit_idempotent, IH.
Qed.

Lemma toLowerCase_nil (s : string) : toLowerCase s = "" ↔ s = "".
Proof. by destruct s. Qed.

Lemma toLowerCase_trimStart (s : string) :
  trimStart (toLowerCase s) = toLowerCase (trimStart s).
Proof.
  induction s as [|c s IH]; [done|].
  simpl. rewrite lower_unit_whitespace. by destruct (is_whitespace c).
Qed.

Lemma toLowerCase_trimEnd (s : string) :
  trimEnd (toLowerCase s) = toLowerCase (trimEnd s).
Proof.
  induction s as [|c s IH]; [done|].
  simpl. rewrite lower_unit_whitespace, IH.
  destruct (is_whitespace c); simpl; [|done].
  destruct (decide (trimEnd s = "")) as [Hnil|Hnil].
  - rewrite !bool_decide_true; [done..|]. by apply toLowerCase_nil.
  - rewrite !bool_decide_false; [done..|]. by rewrite toLowerCase_nil.
Qed.

Lemma trimStart_idempotent (s : string) : trimStart (trimStart s) = trimStart s.
Proof.
  induction s as [|c s IH]; [done|].
  simpl. destruct (is_whitespace c) eqn:Hc; [done|]. simpl. by rewrite Hc.
Qed.

Lemma trimEnd_idempotent (s : string) : trimEnd (trimEnd s) = trimEnd s.
Proof.
  induction s as [|c s IH]; [done|].
  simpl. destruct (is_whitespace c && bool_decide (trimEnd s = "")) eqn:Hc;
    [done|].
  simpl. by rewrite IH, Hc.
Qed.

Lemma trimStart_head (s : string) :
  trimStart s = ""
  ∨ ∃ c s', trimStart s = String c s' ∧ is_whitespace c = false.
Proof.
  induction s as [|c s IH]; [by left|].
  simpl. destruct (is_whitespace c) eqn:Hc; [done|]. right. eauto.
Qed.

Lemma trim_idempotent (s : string) : trim (trim s) = trim s.
Proof.
  unfold trim.
  assert (H : trimStart (trimEnd (trimStart s)) = trimEnd (trimStart s)).
  { destruct (trimStart_head s) as [->|(c & s' & -> & Hc)]; [done|].
    simpl. rewrite Hc. simpl. by rewrite Hc. }
  by rewrite H, trimEnd_idempotent.
Qed.

Lemma trimEnd_no_whitespace (s : string) :
  Str.all (λ c, negb (is_whitespace c)) s = true → trimEnd s = s.
Proof.
  induction s as [|c s IH]; [done|].
  simpl. intros [Hc Hs]%andb_true_iff.
  apply negb_true_iff in Hc. rewrite Hc. simpl. by rewrite IH.
Qed.

Lemma all_impl (p q : ascii → bool) (s : string) :
  (∀ c, p c = true → q c = true) → Str.all p s = true → Str.all q s = true.
Proof.
  intros Hpq. induction s as [|c s IH]; [done|].
  simpl. rewrite !andb_true_iff. intros [? ?]. split; [by apply Hpq|by apply IH].
Qed.

Lemma toLowerCase_id_units (s : string) :
  Str.all (λ c, is_id_char c || Ascii.eqb c "-") s = true → toLowerCase s = s.
Proof.
  induction s as [|c s IH]; [done|].
  simpl. intros [Hc Hs]%andb_true_iff. by rewrite lower_unit_id, IH.
Qed.

(** X9: [normalizeId] is idempotent, and an id that [validateId] accepts
    is already normal: [normalizeId] returns it unchanged and
    [looksLikeId] accepts it. *)
Theorem normalizeId_idempotent_fixes_ids (id : string) :
  normalizeId (normalizeId id) = normalizeId id
  ∧ (valid (validateId id) = true →
     normalizeId id = id ∧ looksLikeId id = true).
Proof.
  split.
  - unfold normalizeId, trim.
    rewrite <- toLowerCase_trimEnd, <- toLowerCase_trimStart.
    rewrite toLowerCase_idempotent.
    apply (trim_idempotent (toLowerCase id)).
  - intros (_ & _ & _ & Hre)%validateId_accepts.
    pose proof Hre as Hshape. unfold ID_REGEX_test in Hshape.
    rewrite ID_REGEX_from_shape in Hshape. unfold shape in Hshape.
    rewrite !andb_true_iff in Hshape. destruct Hshape as [[[Hall _] _] _].
    unfold normalizeId, looksLikeId. rewrite toLowerCase_id_units by done.
    split; [|done].
    assert (Hws : Str.all (λ c, negb (is_whitespace c)) id = true).
    { eapply all_impl; [|exact Hall]. intros c Hc. simpl.
      by rewrite (id_unit_no_whitespace c Hc). }
    unfold trim.
    assert (trimStart id = id) as ->; [|by apply trimEnd_no_whitespace].
    destruct id as [|c s]; [done|]. simpl in *.
    apply andb_true_iff in Hws as [Hc _]. apply negb_true_iff in Hc.
    by rewrite Hc.
Qed.

Lemma normalizeId_idempotent_fixes_ids_witness :
  normalizeId "my-command" = "my-command" ∧ looksLikeId "my-command" = true.
Proof.
  exact (proj2 (normalizeId_idempotent_fixes_ids "my-command") eq_refl).
Defined.

End NormalizeTheorems.
